(** * The streaming agent wrapper: subscriptions, broadcast and the sent-cache

    A shallow embedding of the [Agent] class of the exercise "Wrapper de
    Agente LangChain con Streaming" (agents_wrapper/agent.ts) together with
    the module-level cache [sentMessages], and the properties of its
    publish/subscribe layer.

    What is modelled
    - [sentMessages], a [Record<string, boolean>] declared once at module
      scope and therefore shared by every [Agent] instance;
    - [messagesHandlers], a [Record<string, Array<handler>>] owned by each
      [Agent] instance;
    - the four methods [messageReceived], [_sendMessageToClients],
      [registerNewMessageHandler] and [unregisterNewMessageHandler].

    What is left to the environment
    - the LangChain agent: only the value obtained from
      [this.internalAgent.stream(...)] matters to the wrapper, so a turn takes
      that value (the chunks it yields and the way it ends) as an input;
    - the callbacks: a handler is a closure compared by reference ([!==]); it
      is represented by a number naming the closure, and the only thing the
      wrapper can observe of a call is whether it returns or throws.
      Callbacks are assumed not to call back into the agent;
    - [console.log], which touches none of the data above.

    JavaScript objects used as dictionaries are finite maps; keys are assumed
    not to be names inherited from [Object.prototype]. *)

From stdpp Require Import gmap strings list fin_maps pretty.

(** ** Data *)

(** [BaseMessage]: the wrapper reads [id] (optional on the JavaScript side)
    and passes the rest through untouched. *)
Record BaseMessage := {
  id : option string;
  content : string
}.

#[global] Instance BaseMessage_eq_dec : EqDecision BaseMessage.
Proof. solve_decision. Defined.

(** A handler is the identity of a closure [(message) => void]. *)
Abbreviation Handler := nat.

(** A reference to an [Agent] object. *)
Abbreviation AgentRef := nat.

(** One element of the stream in [streamMode: "values"]: the state, whose
    [messages] field may be missing. *)
Record Chunk := {
  messages : option (list BaseMessage)
}.

(** The value of [await this.internalAgent.stream(...)] as the loop consumes
    it: the chunks produced, then either exhaustion ([None]) or a rejection
    with a reason.  A rejection of [stream(...)] itself is the case with no
    chunk. *)
Record Response := {
  chunks : list Chunk;
  failure : option string
}.

Record ClientConfig := {
  thread_id : string
}.

(** What can be thrown while a method of the wrapper runs. *)
Inductive Error :=
| AgentError (reason : string)
| HandlerError (handler : Handler) (message : BaseMessage).

(** The store: the module-level cache, the [messagesHandlers] of every
    [Agent] object, and the calls made to handlers so far, oldest first. *)
Record Heap := {
  sentMessages : gmap string bool;
  agents : gmap AgentRef (gmap string (list Handler));
  calls : list (Handler * BaseMessage)
}.

(** ** Computations: state plus exceptions

    A JavaScript exception does not undo the writes made before it, so a
    computation returns its completion together with the store it left. *)

Inductive Completion (A : Type) :=
| Normal (a : A)
| Throw (e : Error).
Arguments Normal {A} a.
Arguments Throw {A} e.

Definition Js (A : Type) : Type := Heap → Completion A * Heap.

#[global] Instance Js_ret : MRet Js := λ A a σ, (Normal a, σ).

#[global] Instance Js_bind : MBind Js := λ A B f c σ,
  match c σ with
  | (Normal a, σ') => f a σ'
  | (Throw e, σ') => (Throw e, σ')
  end.

Definition throw {A} (e : Error) : Js A := λ σ, (Throw e, σ).

Definition gets {A} (f : Heap → A) : Js A := λ σ, (Normal (f σ), σ).

Definition modify (f : Heap → Heap) : Js unit := λ σ, (Normal (), f σ).

(** [Array.prototype.forEach]: the callback runs on each element in index
    order; an exception leaves the loop at once. *)
Fixpoint forEach {A} (l : list A) (callbackfn : A → Js unit) : Js unit :=
  match l with
  | [] => mret ()
  | x :: l' => callbackfn x ≫= λ _, forEach l' callbackfn
  end.

(** ** Field access *)

(** [this.messagesHandlers]; an object never touched still has the [{}] its
    field initialiser gave it. *)
Definition messagesHandlers (σ : Heap) (this : AgentRef)
  : gmap string (list Handler) :=
  default ∅ (agents σ !! this).

Definition set_messagesHandlers (this : AgentRef)
    (f : gmap string (list Handler) → gmap string (list Handler))
    (σ : Heap) : Heap :=
  {| sentMessages := sentMessages σ;
     agents := <[this := f (messagesHandlers σ this)]> (agents σ);
     calls := calls σ |}.

Definition set_sentMessages (f : gmap string bool → gmap string bool)
    (σ : Heap) : Heap :=
  {| sentMessages := f (sentMessages σ);
     agents := agents σ;
     calls := calls σ |}.

Definition record_calls (new : list (Handler * BaseMessage)) (σ : Heap) : Heap :=
  {| sentMessages := sentMessages σ;
     agents := agents σ;
     calls := calls σ ++ new |}.

(** The template literal [`${msg.id}`]: an absent id prints as the nine
    letters of [undefined]. *)
Definition key_of (msg : BaseMessage) : string :=
  match id msg with
  | Some s => s
  | None => "undefined"%string
  end.

(** Truthiness of [sentMessages[key]]. *)
Definition seen (σ : Heap) (key : string) : bool :=
  match sentMessages σ !! key with
  | Some b => b
  | None => false
  end.

(** The handlers an agent holds for a thread, none when the entry is missing. *)
Definition subscribers (σ : Heap) (this : AgentRef) (uuid : string)
  : list Handler :=
  default [] (messagesHandlers σ this !! uuid).

(** ** The methods *)

Section Wrapper.

(** [throws h m]: the closure [h] throws when called with [m]. *)
Variable throws : Handler → BaseMessage → bool.

(** [handler(message)] *)
Definition call (handler : Handler) (message : BaseMessage) : Js unit :=
  λ σ, (if throws handler message
        then Throw (HandlerError handler message)
        else Normal (),
        record_calls [(handler, message)] σ).

Definition _sendMessageToClients (this : AgentRef) (uuid : string)
    (message : BaseMessage) : Js unit :=
  hs ← gets (λ σ, messagesHandlers σ this !! uuid);
  match hs with
  | None => mret ()
  | Some hs => forEach hs (λ handler, call handler message)
  end.

(** The callback of [chunk.messages.forEach]. *)
Definition sendOnce (this : AgentRef) (thread_id : string)
    (msg : BaseMessage) : Js unit :=
  sent ← gets (λ σ, seen σ (key_of msg));
  if (sent : bool) then mret ()
  else
    _sendMessageToClients this thread_id msg ≫= λ _,
    modify (set_sentMessages <[key_of msg := true]>).

(** The body of [for await (const chunk of response)]. *)
Definition onChunk (this : AgentRef) (thread_id : string)
    (chunk : Chunk) : Js unit :=
  match messages chunk with
  | Some msgs => forEach msgs (sendOnce this thread_id)
  | None => mret ()
  end.

(** [messageReceived]; [response] is what the agent streamed for [message]
    on this thread.  [Throw] is a rejection of the promise it returns. *)
Definition messageReceived (this : AgentRef) (message : string)
    (clientConfig : ClientConfig) (response : Response) : Js unit :=
  forEach (chunks response) (onChunk this (thread_id clientConfig)) ≫= λ _,
  match failure response with
  | None => mret ()
  | Some reason => throw (AgentError reason)
  end.

Definition registerNewMessageHandler (this : AgentRef) (handler : Handler)
    (uuid : string) : Js unit :=
  modify (set_messagesHandlers this (λ mh,
    <[uuid := default [] (mh !! uuid) ++ [handler]]> mh)).

Definition unregisterNewMessageHandler (this : AgentRef) (uuid : string)
    (handler : Handler) : Js unit :=
  hs ← gets (λ σ, messagesHandlers σ this !! uuid);
  match hs with
  | None => mret ()
  | Some hs =>
      modify (set_messagesHandlers this
                <[uuid := filter (λ h, h ≠ handler) hs]>)
  end.

End Wrapper.

(** ** The event loop

    [messageReceived] is suspended at every [await] of its loop; between two
    chunks other requests run to completion: connections register handlers,
    closed connections unregister them, and other turns in flight process
    their own chunks.  A history of the server is a list of such tasks, each
    run in one piece.  A task that throws ends its own request only; the
    writes it made stay. *)

Inductive Task :=
| Connect (this : AgentRef) (handler : Handler) (uuid : string)
| Disconnect (this : AgentRef) (uuid : string) (handler : Handler)
| Stream (this : AgentRef) (thread_id : string) (chunk : Chunk).

Definition run_task (throws : Handler → BaseMessage → bool) (t : Task)
  : Js unit :=
  match t with
  | Connect this handler uuid => registerNewMessageHandler this handler uuid
  | Disconnect this uuid handler => unregisterNewMessageHandler this uuid handler
  | Stream this thread_id chunk => onChunk throws this thread_id chunk
  end.

Definition event_loop (throws : Handler → BaseMessage → bool)
    (tasks : list Task) (σ : Heap) : Heap :=
  foldl (λ σ t, (run_task throws t σ).2) σ tasks.

(** The store of a process that has just loaded the module. *)
Definition initial : Heap :=
  {| sentMessages := ∅; agents := ∅; calls := [] |}.

(** The calls made between two stores of one history. *)
Definition since (σ σ' : Heap) : list (Handler * BaseMessage) :=
  drop (length (calls σ)) (calls σ').

(** What a broadcast of [m] to the list [hs] adds to [calls]. *)
Definition fanout (hs : list Handler) (m : BaseMessage)
  : list (Handler * BaseMessage) :=
  (λ h, (h, m)) <$> hs.

(** The message lists of a response in arrival order, empty for a chunk
    without [messages]. *)
Definition snapshots (response : Response) : list (list BaseMessage) :=
  (λ c, default [] (messages c)) <$> chunks response.



(** [σ'] is a later store of the same process: the cache has only gained
    keys, [calls] has only been extended, and each added call carried a
    message whose key was not yet in the cache of [σ]. *)
Record evolves (σ σ' : Heap) : Prop := {
  evolves_seen : ∀ key, seen σ key = true → seen σ' key = true;
  evolves_calls : calls σ' = calls σ ++ since σ σ';
  evolves_unseen : ∀ h m, (h, m) ∈ since σ σ' → seen σ (key_of m) = false
}.

(** ** Sample data

    Messages, callbacks and stores used to run the methods on concrete
    inputs. *)

Definition a1 : BaseMessage := {| id := Some "a1"%string; content := "hola"%string |}.
Definition a2 : BaseMessage := {| id := Some "a2"%string; content := "buscando"%string |}.
Definition a3 : BaseMessage := {| id := Some "a3"%string; content := "respuesta"%string |}.

(** A message without id, and one whose id is the word itself. *)
Definition anonymous : BaseMessage := {| id := None; content := "uno"%string |}.
Definition anonymous' : BaseMessage := {| id := None; content := "otro"%string |}.
Definition literal : BaseMessage :=
  {| id := Some "undefined"%string; content := "dos"%string |}.

(** Callbacks that always return. *)
Definition quiet : Handler → BaseMessage → bool := λ _ _, false.


(** Handler 8 throws on [a2] only. *)
Definition chokes_on_a2 : Handler → BaseMessage → bool :=
  λ h m, bool_decide (h = 8) && bool_decide (key_of m = "a2"%string).

Definition on (uuid : string) : ClientConfig := {| thread_id := uuid |}.

Definition snapshot (msgs : list BaseMessage) : Chunk :=
  {| messages := Some msgs |}.

(** The stream [{m1}], [{m1, m2}], [{m1, m2, m3}] that ends normally. *)
Definition growing (m1 m2 m3 : BaseMessage) : Response :=
  {| chunks := [snapshot [m1]; snapshot [m1; m2]; snapshot [m1; m2; m3]];
     failure := None |}.

(** Agent 0 with handler 7 on thread t1. *)
Definition one_sink : Heap :=
  event_loop quiet [Connect 0 7 "t1"] initial.

(** The same after a turn on thread t0 in which [a1] was streamed. *)
Definition one_sink_later : Heap :=
  event_loop quiet [Connect 0 7 "t1"; Stream 0 "t0" (snapshot [a1])] initial.

(** Agent 0 with handlers 8 then 7 on thread t1. *)
Definition two_sinks : Heap :=
  event_loop quiet [Connect 0 8 "t1"; Connect 0 7 "t1"] initial.

(** The store in the middle of the turn streaming [growing a1 a2 a3] on
    thread t1 of [two_sinks], when [a2] is about to be looked at. *)
Definition before_a2 : Heap :=
  (forEach [a1; a1] (sendOnce chokes_on_a2 0 "t1") two_sinks).2.

(** Agent 0 with handler 8 subscribed twice around handler 7 on thread t1. *)
Definition three_entries : Heap :=
  event_loop quiet
    [Connect 0 8 "t1"; Connect 0 7 "t1"; Connect 0 8 "t1"] initial.

(** * The rest of the repository

    What the agent wrapper is surrounded by: a pure reading of its turns,
    the middleware it installs, the word counter among its tools, the
    indexing script and the hand-written tool loop of the homework
    script. *)




(** Nothing has left the two tables between [σ] and [σ']: every key of the
    cache and every thread entry of every agent is still there. *)
Record retains (σ σ' : Heap) : Prop := {
  retains_keys : ∀ key, is_Some (sentMessages σ !! key) →
                        is_Some (sentMessages σ' !! key);
  retains_threads : ∀ this uuid, is_Some (messagesHandlers σ this !! uuid) →
                                 is_Some (messagesHandlers σ' this !! uuid)
}.

(** ** The [trimMessages] middleware (helpers/middlewares.ts) *)

(** An element of the [messages] update a middleware returns: a removal
    marker or a message. *)
Inductive MessageUpdate :=
| RemoveMessage (id : string)
| Message (msg : BaseMessage).

(** [Array.prototype.slice(-n)]: the last [n] elements, all of them when
    there are fewer. *)
Definition slice_last {A} (n : nat) (l : list A) : list A :=
  drop (length l - n) l.

(** [newMessages]: the first message followed by the last four.  The empty
    case stands for a read that the guard before it excludes. *)
Definition newMessages (messages : list BaseMessage) : list BaseMessage :=
  match messages with
  | firstMsg :: _ => firstMsg :: slice_last 4 messages
  | [] => []
  end.

(** The [beforeModel] hook; [None] is the bare [return], which leaves the
    state alone.  [REMOVE_ALL_MESSAGES] is the marker id LangGraph exports. *)
Definition trimMessages (REMOVE_ALL_MESSAGES : string)
    (messages : list BaseMessage) : option (list MessageUpdate) :=
  if bool_decide (length messages ≤ 3) then None
  else Some (RemoveMessage REMOVE_ALL_MESSAGES
               :: (Message <$> newMessages messages)).

(** ** Strings of the scripts

    A JavaScript string is a sequence of UTF-16 code units. *)
Abbreviation JsString := (list N).

(** The code units of a string of ASCII characters. *)
Definition code_units (s : string) : JsString :=
  Ascii.N_of_ascii <$> String.list_ascii_of_string s.

(** ECMAScript white space and line terminators: what [trim] strips and
    what the class [\s] matches. *)
Definition is_white_space (c : N) : bool :=
  bool_decide (c ∈ [9; 10; 11; 12; 13; 32; 160; 5760; 8232; 8233; 8239;
                    8287; 12288; 65279]%N)
  || ((8192 <=? c)%N && (c <=? 8202)%N).

(** [String.prototype.trimStart], [trimEnd] and [trim]. *)
Fixpoint trimStart (s : JsString) : JsString :=
  match s with
  | c :: s' => if is_white_space c then trimStart s' else s
  | [] => []
  end.

Definition trimEnd (s : JsString) : JsString :=
  reverse (trimStart (reverse s)).

Definition trim (s : JsString) : JsString := trimEnd (trimStart s).

(** [s.split(/\s+/)]: every maximal run of white space is a separator, and
    the pieces between separators are returned, the empty piece before a
    leading run and after a trailing run included; the empty string gives
    one empty piece. *)
Fixpoint split_white_space (s : JsString) : list JsString :=
  match s with
  | [] => [[]]
  | c :: s' =>
      if is_white_space c then
        match s' with
        | [] => [[]; []]
        | c' :: _ =>
            if is_white_space c' then split_white_space s'
            else [] :: split_white_space s'
        end
      else
        match split_white_space s' with
        | piece :: pieces => (c :: piece) :: pieces
        | [] => [[c]]
        end
  end.

(** [.filter(Boolean)] on strings: the empty string is the falsy one. *)
Definition filter_Boolean (pieces : list JsString) : list JsString :=
  filter (λ piece, piece ≠ []) pieces.

(** [words] in the body of [wordCountTool]. *)
Definition words (texto : JsString) : nat :=
  length (filter_Boolean (split_white_space (trim texto))).

(** What the tool returns: [words.toString()], the decimal numeral. *)
Definition wordCountTool (texto : JsString) : JsString :=
  code_units (pretty (words texto)).

(** The number of places where a word starts: a character that is not
    white space, at the beginning or right after white space. *)
Fixpoint word_starts (after_white : bool) (s : JsString) : nat :=
  match s with
  | [] => 0
  | c :: s' =>
      if is_white_space c then word_starts true s'
      else (if after_white then 1 else 0) + word_starts false s'
  end.



(** The text begins with a character that is not white space. *)
Definition begins_word (s : JsString) : bool :=
  match s with
  | c :: _ => negb (is_white_space c)
  | [] => false
  end.

(** The text ends with a character that is not white space. *)
Definition ends_word (s : JsString) : bool :=
  match last s with
  | Some c => negb (is_white_space c)
  | None => false
  end.

(** ** The indexing script (first part of part_000) *)

(** [pageContent.replace(/\n{2,}/g, "\n")]: every maximal run of two or
    more line feeds becomes one line feed.  Written character by
    character: a line feed that is followed by another one is dropped. *)
Fixpoint collapse_newlines (s : JsString) : JsString :=
  match s with
  | [] => []
  | c :: s' =>
      match s' with
      | c' :: _ =>
          if bool_decide (c = 10%N) && bool_decide (c' = 10%N)
          then collapse_newlines s'
          else c :: collapse_newlines s'
      | [] => [c]
      end
  end.

(** The text has two line feeds in a row somewhere. *)
Fixpoint has_blank_line (s : JsString) : bool :=
  match s with
  | [] => false
  | c :: s' =>
      match s' with
      | c' :: _ =>
          (bool_decide (c = 10%N) && bool_decide (c' = 10%N))
          || has_blank_line s'
      | [] => false
      end
  end.

(** What the Qdrant client throws, as far as the script looks at it. *)
Record DeleteError := {
  status : option N;
  message : option string
}.

(** [String.prototype.includes] *)
Fixpoint includes (needle haystack : string) : bool :=
  String.prefix needle haystack ||
  match haystack with
  | String _ rest => includes needle rest
  | EmptyString => false
  end.

(** [error.status === 404 || error.message?.includes("not found")] *)
Definition collection_is_missing (error : DeleteError) : bool :=
  bool_decide (status error = Some 404%N) ||
  match message error with
  | Some text => includes "not found" text
  | None => false
  end.

(** How the loop over the urls is left. *)
Inductive DeleteOutcome :=
| AllDeleted
| CollectionMissing
| DeleteFailed (error : DeleteError).

(** The loop [for (const url of urls)] of step 4; [delete url] is the answer
    of [qdrantClient.delete] for the filter on that url, [None] when it
    resolves.  The result lists the urls for which a deletion was
    requested. *)
Fixpoint delete_existing (delete : string → option DeleteError)
    (urls : list string) : list string * DeleteOutcome :=
  match urls with
  | [] => ([], AllDeleted)
  | url :: urls' =>
      match delete url with
      | None =>
          let '(requested, outcome) := delete_existing delete urls' in
          (url :: requested, outcome)
      | Some error =>
          if collection_is_missing error then ([url], CollectionMissing)
          else ([url], DeleteFailed error)
      end
  end.

(** ** The homework script: a tool-calling loop written by hand

    The model and the three tools are collaborators: a call either
    answers or throws ([None]), and a throw ends the script. *)

Section Homework.

(** The arguments of a tool call, an object the script hands to the tool
    (whole, or its [input] property) without looking inside. *)
Context {Args : Type}.

Record ToolCall := {
  name : string;
  args : Args;
  call_id : option string
}.

(** What [modelWithTools.invoke] returns, as far as the loop reads it. *)
Record AIMessageChunk := {
  text : string;
  tool_calls : option (list ToolCall)
}.

Inductive ChatMessage :=
| SystemMessage (content : string)
| HumanMessage (content : string)
| Reply (response : AIMessageChunk)
| AIMessage (content : string)
| ToolMessage (content : string) (tool_call_id : option string).

(** The collaborators.  Each function stands for an awaited [invoke] and
    the conversion of its answer to a string that the script writes
    around it: the word counter receives [call.args], the other two
    [call.args.input]. *)
Record Collaborators := {
  modelWithTools : list ChatMessage → option AIMessageChunk;
  wordCountTool_invoke : Args → option string;
  wikipediaTool_invoke : Args → option string;
  calculatorTool_invoke : Args → option string
}.

Variable world : Collaborators.

(** The double quote character. *)
Definition double_quote : string :=
  String (Ascii.ascii_of_nat 34) EmptyString.

(** The [if]/[else if] chain that computes [resultado]. *)
Definition resultado (call : ToolCall) : option string :=
  if bool_decide (name call = "contar_palabras"%string) then
    wordCountTool_invoke world (args call)
  else if bool_decide (name call = "wikipedia-api"%string) then
    wikipediaTool_invoke world (args call)
  else if bool_decide (name call = "calculator"%string) then
    calculatorTool_invoke world (args call)
  else
    Some ("Error: herramienta " +:+ double_quote +:+ name call +:+
          double_quote +:+ " no reconocida")%string.

(** What one tool call appends once its tool has answered: the partial text
    of the response when there is one, then the tool's answer. *)
Definition answer_to (response : AIMessageChunk) (call : ToolCall)
    (result : string) : list ChatMessage :=
  (if bool_decide (text response = EmptyString) then []
   else [AIMessage (text response)]) ++
  [ToolMessage result (call_id call)].

(** [for (const call of response.tool_calls)] *)
Fixpoint process_calls (response : AIMessageChunk) (calls : list ToolCall)
    (messages : list ChatMessage) : option (list ChatMessage) :=
  match calls with
  | [] => Some messages
  | call :: calls' =>
      match resultado call with
      | None => None
      | Some result =>
          process_calls response calls'
            (messages ++ answer_to response call result)
      end
  end.

(** How the script leaves the loop. *)
Inductive LoopExit :=
| ModelDone
| LimitReached
| Crashed.

Record LoopResult := {
  history : list ChatMessage;
  iteracion : nat;
  exit : LoopExit
}.

Definition MAX_ITERACIONES : nat := 6.

(** [while (iteracion < MAX_ITERACIONES)]; [remaining] is the distance of
    [iteracion] from the limit. *)
Fixpoint agent_loop (remaining iteracion : nat)
    (messages : list ChatMessage) : LoopResult :=
  match remaining with
  | 0 => {| history := messages; iteracion := iteracion;
            exit := LimitReached |}
  | S remaining' =>
      let iteracion := S iteracion in
      match modelWithTools world messages with
      | None => {| history := messages; iteracion := iteracion;
                   exit := Crashed |}
      | Some response =>
          let messages := messages ++ [Reply response] in
          match tool_calls response with
          | None | Some [] =>
              {| history := messages; iteracion := iteracion;
                 exit := ModelDone |}
          | Some calls =>
              match process_calls response calls messages with
              | None => {| history := messages; iteracion := iteracion;
                           exit := Crashed |}
              | Some messages' => agent_loop remaining' iteracion messages'
              end
          end
      end
  end.

(** Step 5 of the script, from [iteracion = 0]. *)
Definition homework_loop (messages : list ChatMessage) : LoopResult :=
  agent_loop MAX_ITERACIONES 0 messages.

End Homework.

Arguments ToolCall : clear implicits.
Arguments AIMessageChunk : clear implicits.
Arguments ChatMessage : clear implicits.
Arguments Collaborators : clear implicits.
Arguments LoopResult : clear implicits.

(** ** More sample data *)

Definition four_messages : list BaseMessage := [a1; a2; a3; anonymous].

Definition six_messages : list BaseMessage :=
  [a1; a2; a3; anonymous; literal; anonymous'].

(** A model that first asks for the word counter and, once it sees more
    than two messages, answers without tool calls; the word counter
    answers, the other two tools throw. *)
Definition sample_world : Collaborators unit :=
  {| modelWithTools := λ messages,
       if bool_decide (length messages ≤ 2) then
         Some {| text := "borrador"%string;
                 tool_calls := Some [ {| name := "contar_palabras"%string;
                                         args := ();
                                         call_id := Some "c1"%string |} ] |}
       else Some {| text := "listo"%string; tool_calls := None |};
     wordCountTool_invoke := λ _, Some "1"%string;
     wikipediaTool_invoke := λ _, None;
     calculatorTool_invoke := λ _, None |}.

(** ** Reasoning about computations *)

Lemma bind_normal {A B} (c : Js A) (f : A → Js B) σ a σ' :
  c σ = (Normal a, σ') → (c ≫= f) σ = f a σ'.
Proof. intros Hc. unfold mbind, Js_bind. by rewrite Hc. Qed.

Lemma bind_throw {A B} (c : Js A) (f : A → Js B) σ e σ' :
  c σ = (Throw e, σ') → (c ≫= f) σ = (Throw e, σ').
Proof. intros Hc. unfold mbind, Js_bind. by rewrite Hc. Qed.

Lemma forEach_cons_normal {A} (x : A) l (f : A → Js unit) σ σ1 :
  f x σ = (Normal (), σ1) → forEach (x :: l) f σ = forEach l f σ1.
Proof. intros H. simpl. unfold mbind, Js_bind. by rewrite H. Qed.

Lemma forEach_cons_throw {A} (x : A) l (f : A → Js unit) σ e σ1 :
  f x σ = (Throw e, σ1) → forEach (x :: l) f σ = (Throw e, σ1).
Proof. intros H. simpl. unfold mbind, Js_bind. by rewrite H. Qed.

Lemma forEach_app {A} (l1 l2 : list A) (f : A → Js unit) σ :
  forEach (l1 ++ l2) f σ = (forEach l1 f ≫= λ _, forEach l2 f) σ.
Proof.
  revert σ. induction l1 as [|x l1 IH]; intros σ; simpl; [done|].
  unfold mbind, Js_bind in *. destruct (f x σ) as [[[]|e] σ1]; [apply IH|done].
Qed.

Lemma forEach_normal_app {A} (l1 l2 : list A) (f : A → Js unit) σ σ1 :
  forEach l1 f σ = (Normal (), σ1) →
  forEach (l1 ++ l2) f σ = forEach l2 f σ1.
Proof.
  intros H. rewrite forEach_app.
  by rewrite (bind_normal _ (λ _, forEach l2 f) _ _ _ H).
Qed.

(** ** Reading the store after a write *)

Lemma record_calls_nil σ : record_calls [] σ = σ.
Proof. destruct σ. unfold record_calls. simpl. by rewrite app_nil_r. Qed.

Lemma record_calls_app l1 l2 σ :
  record_calls l2 (record_calls l1 σ) = record_calls (l1 ++ l2) σ.
Proof. unfold record_calls. simpl. by rewrite app_assoc. Qed.

Lemma messagesHandlers_set this this' f σ :
  messagesHandlers (set_messagesHandlers this f σ) this' =
  if decide (this = this') then f (messagesHandlers σ this)
  else messagesHandlers σ this'.
Proof.
  unfold messagesHandlers, set_messagesHandlers. simpl.
  rewrite lookup_insert. by case_decide.
Qed.


Lemma seen_mark σ key key' :
  seen (set_sentMessages <[key := true]> σ) key' =
  if decide (key = key') then true else seen σ key'.
Proof.
  unfold seen, set_sentMessages. simpl. rewrite lookup_insert.
  by case_decide.
Qed.

Lemma since_record_calls l σ : since σ (record_calls l σ) = l.
Proof. unfold since, record_calls. simpl. by rewrite drop_app_length. Qed.

Lemma since_refl σ : since σ σ = [].
Proof. unfold since. by rewrite drop_all. Qed.

(** ** Broadcast *)

Section Broadcast.

Variable throws : Handler → BaseMessage → bool.

Lemma fanout_prefix called hs m :
  called `prefix_of` hs → fanout called m `prefix_of` fanout hs m.
Proof. intros [k ->]. exists (fanout k m). unfold fanout. apply fmap_app. Qed.

Lemma forEach_call_returns hs m σ :
  (∀ h, h ∈ hs → throws h m = false) →
  forEach hs (λ handler, call throws handler m) σ =
  (Normal (), record_calls (fanout hs m) σ).
Proof.
  revert σ. induction hs as [|h hs IH]; intros σ Hok; simpl.
  - by rewrite record_calls_nil.
  - unfold mbind, Js_bind, call at 1.
    rewrite Hok by set_solver. rewrite IH by set_solver.
    by rewrite record_calls_app.
Qed.

Lemma forEach_call_throws pre h post m σ :
  (∀ h', h' ∈ pre → throws h' m = false) →
  throws h m = true →
  forEach (pre ++ h :: post) (λ handler, call throws handler m) σ =
  (Throw (HandlerError h m), record_calls (fanout (pre ++ [h]) m) σ).
Proof.
  intros Hpre Hh.
  rewrite (forEach_normal_app _ _ _ _ _ (forEach_call_returns pre m σ Hpre)).
  simpl. unfold mbind, Js_bind, call at 1. rewrite Hh.
  rewrite record_calls_app. unfold fanout. by rewrite fmap_app.
Qed.

(** Whatever the callbacks do, the loop calls a prefix of the list, in
    order, and is the whole list unless one of them throws. *)
Lemma forEach_call_shape hs m σ :
  ∃ called,
    called `prefix_of` hs ∧
    (forEach hs (λ handler, call throws handler m) σ).2 =
      record_calls (fanout called m) σ ∧
    match (forEach hs (λ handler, call throws handler m) σ).1 with
    | Normal _ => called = hs
    | Throw e => ∃ h, e = HandlerError h m ∧ throws h m = true ∧ h ∈ called
    end.
Proof.
  revert σ. induction hs as [|h hs IH]; intros σ; simpl.
  - exists []. by rewrite record_calls_nil.
  - unfold mbind, Js_bind, call at 1 3.
    destruct (throws h m) eqn:Hh.
    + exists [h]. simpl. split; [by apply prefix_cons, prefix_nil|].
      split; [done|]. exists h. set_solver.
    + destruct (IH (record_calls [(h, m)] σ)) as (called & Hp & Hs & Hr).
      exists (h :: called). split; [by apply prefix_cons|].
      rewrite Hs, record_calls_app. split; [done|].
      destruct (forEach hs _ _).1; [by subst|].
      destruct Hr as (h' & ? & ? & ?). exists h'. set_solver.
Qed.

Lemma _sendMessageToClients_forEach this uuid m σ :
  _sendMessageToClients throws this uuid m σ =
  forEach (subscribers σ this uuid) (λ handler, call throws handler m) σ.
Proof.
  unfold _sendMessageToClients, subscribers, mbind, Js_bind, gets.
  by destruct (messagesHandlers σ this !! uuid).
Qed.

Lemma sendOnce_seen this uuid m σ :
  seen σ (key_of m) = true →
  sendOnce throws this uuid m σ = (Normal (), σ).
Proof. intros H. unfold sendOnce, mbind, Js_bind, gets. by rewrite H. Qed.

Lemma sendOnce_unseen this uuid m σ :
  seen σ (key_of m) = false →
  sendOnce throws this uuid m σ =
  (_sendMessageToClients throws this uuid m ≫= λ _,
   modify (set_sentMessages <[key_of m := true]>)) σ.
Proof. intros H. unfold sendOnce at 1, mbind at 1, Js_bind at 1, gets. by rewrite H. Qed.


Lemma sendOnce_throws this uuid m σ pre h post :
  seen σ (key_of m) = false →
  subscribers σ this uuid = pre ++ h :: post →
  (∀ h', h' ∈ pre → throws h' m = false) →
  throws h m = true →
  sendOnce throws this uuid m σ =
  (Throw (HandlerError h m), record_calls (fanout (pre ++ [h]) m) σ).
Proof.
  intros Hs Hsub Hpre Hh. rewrite sendOnce_unseen by done.
  unfold mbind, Js_bind.
  by rewrite _sendMessageToClients_forEach, Hsub, forEach_call_throws.
Qed.

End Broadcast.

(** ** Later stores *)

Lemma since_app σ σ' new : calls σ' = calls σ ++ new → since σ σ' = new.
Proof. intros H. unfold since. rewrite H. by rewrite drop_app_length. Qed.

Lemma evolves_intro σ σ' new :
  (∀ key, seen σ key = true → seen σ' key = true) →
  calls σ' = calls σ ++ new →
  (∀ h m, (h, m) ∈ new → seen σ (key_of m) = false) →
  evolves σ σ'.
Proof.
  intros Hs Hc Hn. pose proof (since_app _ _ _ Hc) as E.
  split; [done|by rewrite E|by rewrite E].
Qed.

Lemma evolves_refl σ : evolves σ σ.
Proof.
  apply (evolves_intro σ σ []); [done|by rewrite app_nil_r|set_solver].
Qed.

Lemma evolves_since_trans σ1 σ2 σ3 :
  evolves σ1 σ2 → evolves σ2 σ3 →
  since σ1 σ3 = since σ1 σ2 ++ since σ2 σ3.
Proof.
  intros [_ H12 _] [_ H23 _]. apply since_app.
  rewrite H23, H12 at 1. by rewrite app_assoc.
Qed.

Lemma evolves_trans σ1 σ2 σ3 : evolves σ1 σ2 → evolves σ2 σ3 → evolves σ1 σ3.
Proof.
  intros H12 H23. pose proof (evolves_since_trans _ _ _ H12 H23) as E.
  destruct H12 as [Hs12 Hc12 Hu12], H23 as [Hs23 Hc23 Hu23].
  apply (evolves_intro σ1 σ3 (since σ1 σ2 ++ since σ2 σ3)).
  - auto.
  - rewrite Hc23, Hc12 at 1. by rewrite app_assoc.
  - intros h m [Hin|Hin]%elem_of_app; [eauto|].
    specialize (Hu23 _ _ Hin). specialize (Hs12 (key_of m)).
    destruct (seen σ1 (key_of m)); [|done]. rewrite Hs12 in Hu23; done.
Qed.

#[global] Instance evolves_preorder : PreOrder evolves.
Proof. split; [exact evolves_refl|exact evolves_trans]. Qed.

Lemma evolves_mark σ key : evolves σ (set_sentMessages <[key := true]> σ).
Proof.
  apply (evolves_intro _ _ []); [|by rewrite app_nil_r|set_solver].
  intros k Hk. rewrite seen_mark. by case_decide.
Qed.

Lemma evolves_set_messagesHandlers this f σ :
  evolves σ (set_messagesHandlers this f σ).
Proof.
  apply (evolves_intro _ _ []); [done|by rewrite app_nil_r|set_solver].
Qed.

Lemma evolves_record_calls hs m σ :
  seen σ (key_of m) = false → evolves σ (record_calls (fanout hs m) σ).
Proof.
  intros Hm. apply (evolves_intro _ _ (fanout hs m)); [done|done|].
  intros h m' (h' & [= -> ->] & _)%list_elem_of_fmap. done.
Qed.

(** ** What each method does to the store *)

Section Effects.

Variable throws : Handler → BaseMessage → bool.

(** The three ways [sendOnce] can go: suppressed, broadcast to every
    subscriber and recorded, or cut short by a callback and not recorded. *)
Lemma sendOnce_shape this uuid m σ :
  ∃ called,
    called `prefix_of` subscribers σ this uuid ∧
    match sendOnce throws this uuid m σ with
    | (Normal _, σ') =>
        (seen σ (key_of m) = true ∧ σ' = σ) ∨
        (seen σ (key_of m) = false ∧ called = subscribers σ this uuid ∧
         σ' = set_sentMessages <[key_of m := true]>
                (record_calls (fanout called m) σ))
    | (Throw e, σ') =>
        seen σ (key_of m) = false ∧
        σ' = record_calls (fanout called m) σ ∧
        ∃ h, e = HandlerError h m ∧ throws h m = true ∧ h ∈ called
    end.
Proof.
  destruct (seen σ (key_of m)) eqn:Hs.
  - exists []. split; [apply prefix_nil|]. rewrite sendOnce_seen by done. auto.
  - rewrite sendOnce_unseen by done. unfold mbind, Js_bind.
    rewrite _sendMessageToClients_forEach.
    destruct (forEach_call_shape throws (subscribers σ this uuid) m σ)
      as (called & Hp & Hσ & Hr).
    exists called. split; [done|].
    destruct (forEach _ _ σ) as [[[]|e] σ1]; simpl in *; subst; auto.
Qed.

Lemma sendOnce_evolves this uuid m σ :
  evolves σ (sendOnce throws this uuid m σ).2.
Proof.
  destruct (sendOnce_shape this uuid m σ) as (called & _ & H).
  destruct (sendOnce _ _ _ _ σ) as [[[]|e] σ']; simpl.
  - destruct H as [[_ ->]|(Hs & _ & ->)]; [done|].
    etrans; [by apply evolves_record_calls|apply evolves_mark].
  - destruct H as (Hs & -> & _). by apply evolves_record_calls.
Qed.

Lemma sendOnce_agents this uuid m σ :
  agents (sendOnce throws this uuid m σ).2 = agents σ.
Proof.
  destruct (sendOnce_shape this uuid m σ) as (called & _ & H).
  destruct (sendOnce _ _ _ _ σ) as [[[]|e] σ']; simpl.
  - by destruct H as [[_ ->]|(_ & _ & ->)].
  - by destruct H as (_ & -> & _).
Qed.

Lemma forEach_evolves {A} (f : A → Js unit) l σ :
  (∀ x σ, evolves σ (f x σ).2) → evolves σ (forEach l f σ).2.
Proof.
  intros Hf. revert σ. induction l as [|x l IH]; intros σ; simpl; [done|].
  unfold mbind, Js_bind. specialize (Hf x σ).
  destruct (f x σ) as [[[]|e] σ1]; simpl in *; [|done].
  etrans; [done|apply IH].
Qed.

Lemma forEach_agents {A} (f : A → Js unit) l σ :
  (∀ x σ, agents (f x σ).2 = agents σ) →
  agents (forEach l f σ).2 = agents σ.
Proof.
  intros Hf. revert σ. induction l as [|x l IH]; intros σ; simpl; [done|].
  unfold mbind, Js_bind. specialize (Hf x σ).
  destruct (f x σ) as [[[]|e] σ1]; simpl in *; [|done].
  by rewrite IH.
Qed.

Lemma onChunk_evolves this uuid chunk σ :
  evolves σ (onChunk throws this uuid chunk σ).2.
Proof.
  unfold onChunk. destruct (messages chunk); [|done].
  apply forEach_evolves. intros. apply sendOnce_evolves.
Qed.

Lemma onChunk_agents this uuid chunk σ :
  agents (onChunk throws this uuid chunk σ).2 = agents σ.
Proof.
  unfold onChunk. destruct (messages chunk); [|done].
  apply forEach_agents. intros. apply sendOnce_agents.
Qed.

Lemma messageReceived_chunks this text cfg response σ :
  (messageReceived throws this text cfg response σ).2 =
  (forEach (chunks response) (onChunk throws this (thread_id cfg)) σ).2.
Proof.
  unfold messageReceived, mbind, Js_bind.
  destruct (forEach _ _ σ) as [[[]|e] σ1]; [|done].
  by destruct (failure response).
Qed.

Lemma messageReceived_evolves this text cfg response σ :
  evolves σ (messageReceived throws this text cfg response σ).2.
Proof.
  rewrite messageReceived_chunks.
  apply forEach_evolves. intros. apply onChunk_evolves.
Qed.

Lemma messageReceived_agents this text cfg response σ :
  agents (messageReceived throws this text cfg response σ).2 = agents σ.
Proof.
  rewrite messageReceived_chunks.
  apply forEach_agents. intros. apply onChunk_agents.
Qed.

Lemma registerNewMessageHandler_evolves this handler uuid σ :
  evolves σ (registerNewMessageHandler this handler uuid σ).2.
Proof. apply evolves_set_messagesHandlers. Qed.

Lemma unregisterNewMessageHandler_evolves this uuid handler σ :
  evolves σ (unregisterNewMessageHandler this uuid handler σ).2.
Proof.
  unfold unregisterNewMessageHandler, mbind, Js_bind, gets.
  destruct (messagesHandlers σ this !! uuid); simpl;
    [apply evolves_set_messagesHandlers|done].
Qed.

Lemma run_task_evolves t σ : evolves σ (run_task throws t σ).2.
Proof.
  destruct t; simpl.
  - apply registerNewMessageHandler_evolves.
  - apply unregisterNewMessageHandler_evolves.
  - apply onChunk_evolves.
Qed.

Lemma event_loop_app tasks1 tasks2 σ :
  event_loop throws (tasks1 ++ tasks2) σ =
  event_loop throws tasks2 (event_loop throws tasks1 σ).
Proof. unfold event_loop. by rewrite foldl_app. Qed.

Lemma event_loop_evolves tasks σ : evolves σ (event_loop throws tasks σ).
Proof.
  revert σ. induction tasks as [|t tasks IH]; intros σ; [done|].
  simpl. etrans; [apply run_task_evolves|apply IH].
Qed.

End Effects.

(** ** Subscription lists *)

Lemma filter_keeps_all {A} (P : A → Prop) `{!∀ x, Decision (P x)} (l : list A) :
  (∀ x, x ∈ l → P x) → filter P l = l.
Proof.
  induction l as [|x l IH]; intros Hall; [done|].
  rewrite filter_cons, decide_True by set_solver.
  f_equal. apply IH. set_solver.
Qed.

Lemma filter_keeps_none {A} (P : A → Prop) `{!∀ x, Decision (P x)} (l : list A) :
  (∀ x, x ∈ l → ¬ P x) → filter P l = [].
Proof.
  induction l as [|x l IH]; intros Hnone; [done|].
  rewrite filter_cons, decide_False by (apply Hnone; left).
  apply IH. intros y Hy. apply Hnone. by right.
Qed.

Lemma sublist_filter_mono {A} (P : A → Prop) `{!∀ x, Decision (P x)}
    (l k : list A) :
  l `sublist_of` k → filter P l `sublist_of` filter P k.
Proof.
  induction 1 as [|x l k _ IH|x l k _ IH]; [done| |];
    rewrite ?(filter_cons _ x); repeat case_decide;
    try done; by constructor.
Qed.


Lemma subscribers_register this handler uuid σ this' uuid' :
  subscribers (registerNewMessageHandler this handler uuid σ).2 this' uuid' =
  if decide (this = this' ∧ uuid = uuid')
  then subscribers σ this uuid ++ [handler]
  else subscribers σ this' uuid'.
Proof.
  unfold registerNewMessageHandler, modify, subscribers. simpl.
  rewrite messagesHandlers_set.
  destruct (decide (this = this')) as [->|Hne].
  - rewrite lookup_insert. destruct (decide (uuid = uuid')) as [->|Hu].
    + by rewrite decide_True.
    + by rewrite decide_False by (intros [? ?]; done).
  - by rewrite decide_False by (intros [? ?]; done).
Qed.

Lemma subscribers_unregister this uuid handler σ this' uuid' :
  subscribers (unregisterNewMessageHandler this uuid handler σ).2 this' uuid' =
  if decide (this = this' ∧ uuid = uuid')
  then filter (λ h, h ≠ handler) (subscribers σ this uuid)
  else subscribers σ this' uuid'.
Proof.
  unfold unregisterNewMessageHandler, mbind, Js_bind, gets, modify.
  destruct (messagesHandlers σ this !! uuid) as [hs|] eqn:Hhs; simpl.
  - unfold subscribers. rewrite messagesHandlers_set.
    destruct (decide (this = this')) as [->|Hne].
    + rewrite lookup_insert. destruct (decide (uuid = uuid')) as [->|Hu].
      * by rewrite decide_True, Hhs.
      * by rewrite decide_False by (intros [? ?]; done).
    + by rewrite decide_False by (intros [? ?]; done).
  - case_decide as H; [|done]. destruct H as [<- <-].
    unfold subscribers. by rewrite Hhs.
Qed.

Lemma unregisterNewMessageHandler_returns this uuid handler σ :
  (unregisterNewMessageHandler this uuid handler σ).1 = Normal ().
Proof.
  unfold unregisterNewMessageHandler, mbind, Js_bind, gets, modify.
  by destruct (messagesHandlers σ this !! uuid).
Qed.


Lemma messagesHandlers_register this handler uuid σ this' uuid' :
  messagesHandlers (registerNewMessageHandler this handler uuid σ).2 this'
    !! uuid' =
  if decide (this = this' ∧ uuid = uuid')
  then Some (subscribers σ this uuid ++ [handler])
  else messagesHandlers σ this' !! uuid'.
Proof.
  unfold registerNewMessageHandler, modify, subscribers. simpl.
  rewrite messagesHandlers_set.
  destruct (decide (this = this')) as [->|Hne].
  - rewrite lookup_insert. destruct (decide (uuid = uuid')) as [->|Hu].
    + by rewrite decide_True.
    + by rewrite decide_False by (intros [? ?]; done).
  - by rewrite decide_False by (intros [? ?]; done).
Qed.

Lemma messagesHandlers_unregister this uuid handler σ this' uuid' :
  messagesHandlers (unregisterNewMessageHandler this uuid handler σ).2 this'
    !! uuid' =
  if decide (this = this' ∧ uuid = uuid')
  then filter (λ h, h ≠ handler) <$> messagesHandlers σ this !! uuid
  else messagesHandlers σ this' !! uuid'.
Proof.
  unfold unregisterNewMessageHandler, mbind, Js_bind, gets, modify.
  destruct (messagesHandlers σ this !! uuid) as [hs|] eqn:Hhs; simpl.
  - rewrite messagesHandlers_set.
    destruct (decide (this = this')) as [->|Hne].
    + rewrite lookup_insert. destruct (decide (uuid = uuid')) as [->|Hu].
      * by rewrite decide_True.
      * by rewrite decide_False by (intros [? ?]; done).
    + by rewrite decide_False by (intros [? ?]; done).
  - case_decide as H; [|done]. by destruct H as [<- <-].
Qed.

Lemma unregisterNewMessageHandler_frame this uuid handler σ :
  sentMessages (unregisterNewMessageHandler this uuid handler σ).2 =
    sentMessages σ ∧
  calls (unregisterNewMessageHandler this uuid handler σ).2 = calls σ.
Proof.
  unfold unregisterNewMessageHandler, mbind, Js_bind, gets, modify.
  by destruct (messagesHandlers σ this !! uuid).
Qed.


(** C7. Unsubscribing a handler from a thread's list yields a list without
    that handler (every registration of it is gone) that is a subsequence
    of the old list and still contains, in the old order, every
    subsequence of the other handlers; nothing else in the store moves. *)
Theorem unregister_removes_exactly σ this uuid handler hs :
  messagesHandlers σ this !! uuid = Some hs →
  ∃ hs',
    unregisterNewMessageHandler this uuid handler σ =
      (Normal (), (unregisterNewMessageHandler this uuid handler σ).2) ∧
    messagesHandlers (unregisterNewMessageHandler this uuid handler σ).2 this
      !! uuid = Some hs' ∧
    (handler ∉ hs') ∧
    (hs' `sublist_of` hs) ∧
    (∀ l, handler ∉ l → l `sublist_of` hs → l `sublist_of` hs') ∧
    (∀ this' uuid', ¬ (this = this' ∧ uuid = uuid') →
       messagesHandlers (unregisterNewMessageHandler this uuid handler σ).2
         this' !! uuid' = messagesHandlers σ this' !! uuid') ∧
    sentMessages (unregisterNewMessageHandler this uuid handler σ).2 =
      sentMessages σ ∧
    calls (unregisterNewMessageHandler this uuid handler σ).2 = calls σ.
Proof.
  intros Hhs. exists (filter (λ h, h ≠ handler) hs).
  split.
  { rewrite <- (unregisterNewMessageHandler_returns this uuid handler σ).
    by destruct (unregisterNewMessageHandler this uuid handler σ). }
  split.
  { by rewrite messagesHandlers_unregister, decide_True, Hhs. }
  split.
  { rewrite list_elem_of_filter. by intros [? _]. }
  split; [apply sublist_filter|].
  split.
  { intros l Hl Hsub.
    rewrite <- (filter_keeps_all (λ h, h ≠ handler) l)
      by (intros x Hx ->; done).
    by apply sublist_filter_mono. }
  split.
  { intros this' uuid' Hne.
    by rewrite messagesHandlers_unregister, decide_False. }
  apply unregisterNewMessageHandler_frame.
Qed.

(** C8. When the only handler left on a thread is unsubscribed, the thread
    keeps its entry, now the empty list; a handler subscribed next becomes
    the whole list and is the one called by the next broadcast on that
    thread.  Subscribing or unsubscribing on one thread of one agent
    leaves every other list as it was. *)
Theorem empty_list_is_kept σ this uuid :
  (∀ hs last newh,
     messagesHandlers σ this !! uuid = Some hs →
     (∀ h, h ∈ hs → h = last) →
     let σ1 := (unregisterNewMessageHandler this uuid last σ).2 in
     let σ2 := (registerNewMessageHandler this newh uuid σ1).2 in
     messagesHandlers σ1 this !! uuid = Some [] ∧
     registerNewMessageHandler this newh uuid σ1 = (Normal (), σ2) ∧
     messagesHandlers σ2 this !! uuid = Some [newh] ∧
     (∀ throws m,
        calls (_sendMessageToClients throws this uuid m σ2).2 =
          calls σ2 ++ [(newh, m)]) ∧
     (∀ throws m, seen σ2 (key_of m) = false →
        calls (sendOnce throws this uuid m σ2).2 = calls σ2 ++ [(newh, m)])) ∧
  (∀ handler this' uuid', ¬ (this = this' ∧ uuid = uuid') →
     messagesHandlers (registerNewMessageHandler this handler uuid σ).2 this'
       !! uuid' = messagesHandlers σ this' !! uuid' ∧
     messagesHandlers (unregisterNewMessageHandler this uuid handler σ).2 this'
       !! uuid' = messagesHandlers σ this' !! uuid').
Proof.
  split.
  - intros hs last newh Hhs Hlast σ1 σ2.
    assert (H1 : messagesHandlers σ1 this !! uuid = Some []).
    { unfold σ1. rewrite messagesHandlers_unregister, decide_True, Hhs by done.
      simpl. f_equal. destruct (filter _ hs) as [|x l] eqn:E; [done|].
      assert (Hx : x ∈ filter (λ h, h ≠ last) hs) by (rewrite E; left).
      apply list_elem_of_filter in Hx as [Hne Hin]. by destruct Hne; apply Hlast. }
    assert (H2 : messagesHandlers σ2 this !! uuid = Some [newh]).
    { unfold σ2. rewrite messagesHandlers_register, decide_True by done.
      unfold subscribers. by rewrite H1. }
    assert (Hsub : subscribers σ2 this uuid = [newh]).
    { unfold subscribers. by rewrite H2. }
    assert (Hsend : ∀ throws m,
      calls (_sendMessageToClients throws this uuid m σ2).2 =
        calls σ2 ++ [(newh, m)]).
    { intros throws m. rewrite _sendMessageToClients_forEach, Hsub. simpl.
      unfold mbind, Js_bind, call. by destruct (throws newh m). }
    split; [done|]. split; [done|]. split; [done|]. split; [done|].
    intros throws m Hm. rewrite sendOnce_unseen by done.
    unfold mbind, Js_bind. specialize (Hsend throws m).
    by destruct (_sendMessageToClients throws this uuid m σ2) as [[[]|e] σ3].
  - intros handler this' uuid' Hne.
    by rewrite messagesHandlers_register, messagesHandlers_unregister,
      !decide_False.
Qed.

(** ** A turn *)

Section Turn.

Variable throws : Handler → BaseMessage → bool.

Lemma forEach_mjoin {A} (ls : list (list A)) (f : A → Js unit) σ :
  forEach (mjoin ls) f σ = forEach ls (λ l, forEach l f) σ.
Proof.
  revert σ. induction ls as [|l ls IH]; intros σ; [done|]. simpl.
  rewrite forEach_app. unfold mbind, Js_bind.
  destruct (forEach l f σ) as [[[]|e] σ1]; [apply IH|done].
Qed.

Lemma forEach_fmap {A B} (g : A → B) (l : list A) (f : B → Js unit) σ :
  forEach (g <$> l) f σ = forEach l (λ x, f (g x)) σ.
Proof.
  revert σ. induction l as [|x l IH]; intros σ; [done|]. simpl.
  unfold mbind, Js_bind. destruct (f (g x) σ) as [[[]|e] σ1]; [apply IH|done].
Qed.

Lemma forEach_ext {A} (l : list A) (f g : A → Js unit) σ :
  (∀ x σ, f x σ = g x σ) → forEach l f σ = forEach l g σ.
Proof.
  intros Hfg. revert σ. induction l as [|x l IH]; intros σ; [done|]. simpl.
  unfold mbind, Js_bind. rewrite Hfg.
  destruct (g x σ) as [[[]|e] σ1]; [apply IH|done].
Qed.

(** The two nested loops of [messageReceived] visit the messages of the
    snapshots one after the other, and stop together. *)
Lemma forEach_chunks this uuid response σ :
  forEach (chunks response) (onChunk throws this uuid) σ =
  forEach (mjoin (snapshots response)) (sendOnce throws this uuid) σ.
Proof.
  rewrite forEach_mjoin. unfold snapshots. rewrite forEach_fmap.
  apply forEach_ext. intros c σ'. unfold onChunk.
  by destruct (messages c).
Qed.

Lemma messageReceived_flat this text cfg response σ :
  messageReceived throws this text cfg response σ =
  (forEach (mjoin (snapshots response)) (sendOnce throws this (thread_id cfg))
     ≫= λ _,
   match failure response with
   | None => mret ()
   | Some reason => throw (AgentError reason)
   end) σ.
Proof.
  unfold messageReceived, mbind, Js_bind. by rewrite forEach_chunks.
Qed.

Lemma subscribers_agents σ σ' this uuid :
  agents σ' = agents σ → subscribers σ' this uuid = subscribers σ this uuid.
Proof. unfold subscribers, messagesHandlers. by intros ->. Qed.

(** The calls made by a run of [sendOnce] over a list of messages are the
    broadcasts, one after the other, of some of these messages in their
    order, the last one cut short if a callback threw. *)
Lemma forEach_sendOnce_blocks this uuid msgs σ :
  ∃ ms,
    ms `sublist_of` msgs ∧
    since σ (forEach msgs (sendOnce throws this uuid) σ).2
      `prefix_of` (ms ≫= fanout (subscribers σ this uuid)) ∧
    ((forEach msgs (sendOnce throws this uuid) σ).1 = Normal () →
     since σ (forEach msgs (sendOnce throws this uuid) σ).2 =
       ms ≫= fanout (subscribers σ this uuid)).
Proof.
  revert σ. induction msgs as [|m msgs IH]; intros σ.
  { exists []. simpl. by rewrite since_refl. }
  pose proof (sendOnce_evolves throws this uuid m σ) as Hev.
  pose proof (sendOnce_agents throws this uuid m σ) as Hag.
  destruct (sendOnce_shape throws this uuid m σ) as (called & Hpre & Hshape).
  destruct (sendOnce throws this uuid m σ) as [[[]|e] σ1] eqn:E;
    simpl in Hev, Hag, Hshape.
  - rewrite (forEach_cons_normal _ _ _ _ _ E).
    destruct (IH σ1) as (ms & Hsub & Hp & Heq).
    pose proof (forEach_evolves (sendOnce throws this uuid) msgs σ1
                  (sendOnce_evolves throws this uuid)) as Hev'.
    rewrite (evolves_since_trans _ _ _ Hev Hev').
    rewrite (subscribers_agents _ _ _ _ Hag) in Hp, Heq.
    destruct Hshape as [[_ ->]|(Hs & -> & ->)].
    + exists ms. rewrite since_refl. simpl.
      split; [by apply sublist_cons|done].
    + exists (m :: ms). split; [by apply sublist_skip|].
      assert (Em : since σ (set_sentMessages <[key_of m:=true]>
                   (record_calls (fanout (subscribers σ this uuid) m) σ)) =
                   fanout (subscribers σ this uuid) m) by by apply since_app.
      rewrite Em. simpl. split; [by apply prefix_app|].
      intros Hn. by rewrite Heq.
  - rewrite (forEach_cons_throw _ _ _ _ _ _ E). simpl.
    destruct Hshape as (Hs & -> & _). exists [m].
    split; [apply sublist_skip, sublist_nil_l|].
    rewrite since_record_calls. simpl. rewrite app_nil_r.
    split; [|done]. by apply fanout_prefix.
Qed.

(** A message handed to a callback during such a run is in the cache when
    the run ends, unless the run ended in a callback called with it. *)
Lemma forEach_sendOnce_marks this uuid msgs σ h m :
  (h, m) ∈ since σ (forEach msgs (sendOnce throws this uuid) σ).2 →
  seen (forEach msgs (sendOnce throws this uuid) σ).2 (key_of m) = true ∨
  ∃ h', (forEach msgs (sendOnce throws this uuid) σ).1 =
          Throw (HandlerError h' m) ∧ throws h' m = true ∧
        (h', m) ∈ since σ (forEach msgs (sendOnce throws this uuid) σ).2.
Proof.
  revert σ. induction msgs as [|m0 msgs IH]; intros σ.
  { simpl. rewrite since_refl. by intros ?%elem_of_nil. }
  pose proof (sendOnce_evolves throws this uuid m0 σ) as Hev.
  destruct (sendOnce_shape throws this uuid m0 σ) as (called & Hpre & Hshape).
  destruct (sendOnce throws this uuid m0 σ) as [[[]|e] σ1] eqn:E;
    simpl in Hev, Hshape.
  - rewrite (forEach_cons_normal _ _ _ _ _ E).
    pose proof (forEach_evolves (sendOnce throws this uuid) msgs σ1
                  (sendOnce_evolves throws this uuid)) as Hev'.
    rewrite (evolves_since_trans _ _ _ Hev Hev').
    intros [Hin|Hin]%elem_of_app.
    + left. apply (evolves_seen _ _ Hev').
      destruct Hshape as [[_ ->]|(Hs & -> & ->)].
      * rewrite since_refl in Hin. by apply elem_of_nil in Hin.
      * rewrite (since_app _ _ (fanout (subscribers σ this uuid) m0)) in Hin
          by done.
        apply list_elem_of_fmap in Hin as (? & [= -> ->] & _).
        rewrite seen_mark. by rewrite decide_True.
    + destruct (IH σ1 Hin) as [?|(h' & ? & ? & ?)]; [by left|].
      right. exists h'. rewrite elem_of_app. auto.
  - rewrite (forEach_cons_throw _ _ _ _ _ _ E). simpl.
    destruct Hshape as (Hs & -> & h' & -> & Hh' & Hin').
    rewrite since_record_calls.
    intros (? & [= -> ->] & _)%list_elem_of_fmap. right.
    exists h'. split; [done|]. split; [done|].
    apply list_elem_of_fmap. eauto.
Qed.

(** A turn that is not cut short by a callback leaves the store that the
    event loop reaches by taking its chunks one after the other. *)
Lemma messageReceived_event_loop this text cfg response σ :
  (∀ h m, (messageReceived throws this text cfg response σ).1 ≠
            Throw (HandlerError h m)) →
  (messageReceived throws this text cfg response σ).2 =
  event_loop throws (Stream this (thread_id cfg) <$> chunks response) σ.
Proof.
  intros Hok. rewrite messageReceived_chunks.
  assert (Hrun : (forEach (chunks response)
                    (onChunk throws this (thread_id cfg)) σ).1 = Normal ()).
  { unfold messageReceived, mbind, Js_bind in Hok.
    destruct (forEach _ _ σ) as [[[]|e] σ1] eqn:E; simpl; [done|].
    simpl in Hok. rewrite forEach_chunks in E.
    assert (Er : (forEach (mjoin (snapshots response))
                    (sendOnce throws this (thread_id cfg)) σ).1 = Throw e)
      by by rewrite E.
    clear E. revert σ Er.
    induction (mjoin (snapshots response)) as [|m msgs IH]; intros σ Er;
      [done|].
    destruct (sendOnce_shape throws this (thread_id cfg) m σ) as (called & _ & Hs).
    destruct (sendOnce throws this (thread_id cfg) m σ) as [[[]|e'] σ'] eqn:E.
    - rewrite (forEach_cons_normal _ _ _ _ _ E) in Er. by apply (IH σ').
    - rewrite (forEach_cons_throw _ _ _ _ _ _ E) in Er. simpl in Er.
      destruct Hs as (_ & _ & h & -> & _). simplify_eq. by destruct (Hok h m). }
  clear Hok. revert σ Hrun.
  induction (chunks response) as [|c cs IH]; intros σ Hr; [done|].
  simpl in *. unfold mbind, Js_bind in *.
  destruct (onChunk throws this (thread_id cfg) c σ) as [[[]|e] σ1];
    simpl in *; [|done].
  by apply IH.
Qed.

End Turn.

(** ** Order of delivery *)

Lemma prefix_of_filter {A} (P : A → Prop) `{!∀ x, Decision (P x)} (l k : list A) :
  l `prefix_of` k → filter P l `prefix_of` filter P k.
Proof. intros [r ->]. rewrite filter_app. by eexists. Qed.

Lemma prefix_of_fmap {A B} (f : A → B) (l k : list A) :
  l `prefix_of` k → f <$> l `prefix_of` f <$> k.
Proof. intros [r ->]. rewrite fmap_app. by eexists. Qed.

Lemma filter_fanout_once (h : Handler) hs m :
  NoDup hs → h ∈ hs → filter (λ c, c.1 = h) (fanout hs m) = [(h, m)].
Proof.
  induction 1 as [|x hs Hx Hnd IH]; [by intros ?%elem_of_nil|].
  intros Hin. unfold fanout in *. rewrite fmap_cons, filter_cons. simpl.
  destruct (decide (x = h)) as [->|Hne].
  - f_equal. apply filter_keeps_none.
    intros c (y & -> & Hy)%list_elem_of_fmap. simpl. by intros ->.
  - apply IH. apply elem_of_cons in Hin as [?|?]; [congruence|done].
Qed.

Lemma filter_blocks_once (h : Handler) hs ms :
  NoDup hs → h ∈ hs →
  filter (λ c, c.1 = h) (ms ≫= fanout hs) = (λ m, (h, m)) <$> ms.
Proof.
  intros Hnd Hin. induction ms as [|m ms IH]; [done|].
  rewrite bind_cons, fmap_cons, filter_app, IH.
  by rewrite filter_fanout_once.
Qed.

Section Order.

Variable throws : Handler → BaseMessage → bool.

Lemma forEach_sendOnce_error this uuid msgs σ e :
  (forEach msgs (sendOnce throws this uuid) σ).1 = Throw e →
  ∃ h m, e = HandlerError h m ∧ throws h m = true.
Proof.
  revert σ. induction msgs as [|m msgs IH]; intros σ; [done|].
  destruct (sendOnce_shape throws this uuid m σ) as (called & _ & Hshape).
  destruct (sendOnce throws this uuid m σ) as [[[]|e'] σ1] eqn:E.
  - rewrite (forEach_cons_normal _ _ _ _ _ E). apply IH.
  - rewrite (forEach_cons_throw _ _ _ _ _ _ E). simpl. intros [= ->].
    destruct Hshape as (_ & _ & h & -> & Hh & _). eauto.
Qed.

Lemma onChunk_blocks this uuid chunk σ :
  ∃ ms,
    ms `sublist_of` default [] (messages chunk) ∧
    since σ (onChunk throws this uuid chunk σ).2
      `prefix_of` (ms ≫= fanout (subscribers σ this uuid)) ∧
    ((onChunk throws this uuid chunk σ).1 = Normal () →
     since σ (onChunk throws this uuid chunk σ).2 =
       ms ≫= fanout (subscribers σ this uuid)).
Proof.
  unfold onChunk. destruct (messages chunk) as [msgs|]; simpl.
  - apply forEach_sendOnce_blocks.
  - exists []. rewrite since_refl. done.
Qed.

(** C9. The calls made during one run of [messageReceived] are the
    broadcasts of some of the streamed messages, taken in the order in
    which the snapshots arrive and, inside a snapshot, in its order; each
    broadcast calls the thread's handlers in the order of the list, that
    is, of registration.  A callback that throws cuts the sequence short
    and reorders nothing.  A handler that is in the list once therefore
    gets its messages in arrival order.  The same holds chunk by chunk
    from any store, with the list the thread has when the chunk arrives. *)
Theorem delivery_follows_arrival_and_registration this text cfg response σ :
  (let hs := subscribers σ this (thread_id cfg) in
   let run := messageReceived throws this text cfg response σ in
   ∃ ms,
     ms `sublist_of` mjoin (snapshots response) ∧
     calls run.2 = calls σ ++ since σ run.2 ∧
     since σ run.2 `prefix_of` (ms ≫= fanout hs) ∧
     ((∀ h m, run.1 ≠ Throw (HandlerError h m)) →
      since σ run.2 = ms ≫= fanout hs) ∧
     (∀ h, NoDup hs → h ∈ hs →
        (filter (λ c, c.1 = h) (since σ run.2)).*2 `prefix_of` ms)) ∧
  (∀ chunk σc,
     let hs := subscribers σc this (thread_id cfg) in
     let step := onChunk throws this (thread_id cfg) chunk σc in
     ∃ ms,
       ms `sublist_of` default [] (messages chunk) ∧
       since σc step.2 `prefix_of` (ms ≫= fanout hs) ∧
       (step.1 = Normal () → since σc step.2 = ms ≫= fanout hs)).
Proof.
  split; [|intros chunk σc; apply onChunk_blocks].
  intros hs run.
  pose proof (messageReceived_evolves throws this text cfg response σ) as Hev.
  destruct (forEach_sendOnce_blocks throws this (thread_id cfg)
              (mjoin (snapshots response)) σ) as (ms & Hsub & Hp & Heq).
  assert (E2 : run.2 = (forEach (mjoin (snapshots response))
                          (sendOnce throws this (thread_id cfg)) σ).2).
  { unfold run. rewrite messageReceived_chunks. by rewrite forEach_chunks. }
  exists ms. rewrite E2. fold hs in Hp, Heq.
  split; [done|].
  split; [rewrite <- E2; apply (evolves_calls _ _ Hev)|].
  split; [done|].
  split.
  - intros Hok. apply Heq.
    destruct (forEach _ _ σ).1 as [[]|e] eqn:Er; [done|].
    destruct (forEach_sendOnce_error _ _ _ _ _ Er) as (h & m & -> & _).
    destruct (Hok h m). unfold run. rewrite messageReceived_flat.
    unfold mbind, Js_bind.
    by destruct (forEach _ _ σ) as [[[]|e] σ1]; simpl in Er; simplify_eq.
  - intros h Hnd Hin.
    apply (prefix_of_filter (λ c, c.1 = h)) in Hp.
    rewrite filter_blocks_once in Hp by done.
    apply (prefix_of_fmap snd) in Hp.
    rewrite <- list_fmap_compose in Hp. simpl in Hp.
    by rewrite list_fmap_id in Hp.
Qed.

End Order.

(** ** Failures *)

Section Failures.

Variable throws : Handler → BaseMessage → bool.

(** C5. When the stream rejects after chunks that were processed without
    a callback throwing, [messageReceived] rejects with the agent's error;
    the store is the one left by those chunks, so nothing more is
    delivered, the calls already made stay in [calls], and each message
    handed to a callback during the turn is in the cache. *)
Theorem agent_failure_is_propagated this text cfg cs reason σ σ1 :
  messageReceived throws this text cfg
    {| chunks := cs; failure := None |} σ = (Normal (), σ1) →
  messageReceived throws this text cfg
    {| chunks := cs; failure := Some reason |} σ =
    (Throw (AgentError reason), σ1) ∧
  calls σ1 = calls σ ++ since σ σ1 ∧
  (∀ h m, (h, m) ∈ since σ σ1 → seen σ1 (key_of m) = true) ∧
  (∀ key, seen σ key = true → seen σ1 key = true).
Proof.
  intros Hrun.
  pose proof (messageReceived_evolves throws this text cfg
                {| chunks := cs; failure := None |} σ) as Hev.
  rewrite Hrun in Hev. simpl in Hev.
  rewrite messageReceived_flat in Hrun. unfold mbind, Js_bind in Hrun.
  simpl in Hrun.
  destruct (forEach _ _ σ) as [[[]|e] σ'] eqn:E; [|done].
  injection Hrun as ->.
  split; [|split; [apply (evolves_calls _ _ Hev)|split]].
  - rewrite messageReceived_flat. unfold mbind, Js_bind, snapshots. simpl.
    unfold snapshots in E. simpl in E. by rewrite E.
  - intros h m Hin.
    pose proof (forEach_sendOnce_marks throws this (thread_id cfg)
                  (mjoin (snapshots {| chunks := cs; failure := None |}))
                  σ h m) as Hm.
    rewrite E in Hm. simpl in Hm.
    destruct (Hm Hin) as [?|(? & ? & _)]; done.
  - apply (evolves_seen _ _ Hev).
Qed.

(** C3 (as the code has it). When a callback throws on a message, the
    broadcast stops there: the handlers before it in the list and the
    thrower itself have been called, the handlers after it are not called,
    the message is not entered in the cache, and [messageReceived] rejects
    with the callback's error without processing the rest of the stream. *)
Theorem throwing_handler_stops_broadcast this text cfg response
    σ0 σ before msg after pre h post :
  mjoin (snapshots response) = before ++ msg :: after →
  forEach before (sendOnce throws this (thread_id cfg)) σ0 = (Normal (), σ) →
  seen σ (key_of msg) = false →
  subscribers σ this (thread_id cfg) = pre ++ h :: post →
  (∀ h', h' ∈ pre → throws h' msg = false) →
  throws h msg = true →
  let σ' := record_calls (fanout (pre ++ [h]) msg) σ in
  sendOnce throws this (thread_id cfg) msg σ = (Throw (HandlerError h msg), σ') ∧
  messageReceived throws this text cfg response σ0 =
    (Throw (HandlerError h msg), σ') ∧
  since σ σ' = fanout pre msg ++ [(h, msg)] ∧
  seen σ' (key_of msg) = false.
Proof.
  intros Hflat Hbefore Hunseen Hsubs Hpre Hh σ'.
  pose proof (sendOnce_throws throws this (thread_id cfg) msg σ pre h post
                Hunseen Hsubs Hpre Hh) as Hsend.
  split; [done|]. split; [|split].
  - rewrite messageReceived_flat, Hflat. unfold mbind, Js_bind.
    rewrite (forEach_normal_app _ _ _ _ _ Hbefore).
    by rewrite (forEach_cons_throw _ _ _ _ _ _ Hsend).
  - unfold σ'. rewrite since_record_calls. unfold fanout. by rewrite fmap_app.
  - done.
Qed.

End Failures.

(** ** Deduplication *)



Section Dedup.

Variable throws : Handler → BaseMessage → bool.




End Dedup.

(** ** One cache for the whole process *)

Section SharedCache.

Variable throws : Handler → BaseMessage → bool.





End SharedCache.

(** ** Who receives a dispatched message *)





Section Dispatch.

Variable throws : Handler → BaseMessage → bool.





End Dispatch.

(** ** The methods on concrete inputs *)

(** Closed decidable facts are settled by evaluation. *)
Ltac by_evaluation := apply (bool_decide_unpack _); vm_compute; exact I.





(** C3, counterexample.  Handlers 8 and 7 are on thread t1 and 8 throws
    on [a2]: handler 7 is never called with [a2], and the promise of
    [messageReceived] is rejected with the error of handler 8. *)
Lemma isolation_counterexample :
  subscribers two_sinks 0 "t1" = [8; 7] ∧
  (messageReceived chokes_on_a2 0 "hola" (on "t1") (growing a1 a2 a3)
     two_sinks).1 = Throw (HandlerError 8 a2) ∧
  calls (messageReceived chokes_on_a2 0 "hola" (on "t1") (growing a1 a2 a3)
           two_sinks).2 = [(8, a1); (7, a1); (8, a2)] ∧
  (7, a2) ∉ calls (messageReceived chokes_on_a2 0 "hola" (on "t1")
                     (growing a1 a2 a3) two_sinks).2.
Proof.
  split; [by vm_compute|]. split; [by vm_compute|]. split; [by vm_compute|].
  by_evaluation.
Qed.

(** C3, the amended statement in the middle of that turn. *)
Lemma isolation_witness :
  let σ' := record_calls (fanout ([] ++ [8]) a2) before_a2 in
  sendOnce chokes_on_a2 0 "t1" a2 before_a2 =
    (Throw (HandlerError 8 a2), σ') ∧
  messageReceived chokes_on_a2 0 "hola" (on "t1") (growing a1 a2 a3)
    two_sinks = (Throw (HandlerError 8 a2), σ') ∧
  since before_a2 σ' = fanout [] a2 ++ [(8, a2)] ∧
  seen σ' (key_of a2) = false.
Proof.
  apply (throwing_handler_stops_broadcast chokes_on_a2 0 "hola" (on "t1")
           (growing a1 a2 a3) two_sinks before_a2 [a1; a1] a2 [a1; a2; a3]
           [] 8 [7]).
  - reflexivity.
  - vm_compute. reflexivity.
  - vm_compute. reflexivity.
  - vm_compute. reflexivity.
  - intros h' Hin. by apply elem_of_nil in Hin.
  - reflexivity.
Defined.


(** C5 at a stream that fails after two snapshots. *)
Lemma agent_failure_witness :
  let cs := [snapshot [a1]; snapshot [a1; a2]] in
  let σ1 := (messageReceived quiet 0 "hola" (on "t1")
               {| chunks := cs; failure := None |} two_sinks).2 in
  messageReceived quiet 0 "hola" (on "t1")
    {| chunks := cs; failure := Some "timeout"%string |} two_sinks =
    (Throw (AgentError "timeout"), σ1) ∧
  calls σ1 = calls two_sinks ++ since two_sinks σ1 ∧
  (∀ h m, (h, m) ∈ since two_sinks σ1 → seen σ1 (key_of m) = true) ∧
  (∀ key, seen two_sinks key = true → seen σ1 key = true).
Proof.
  intros cs σ1.
  apply (agent_failure_is_propagated quiet 0 "hola" (on "t1") cs
           "timeout" two_sinks σ1).
  vm_compute. reflexivity.
Defined.


(** C7 at the list 8, 7, 8 from which handler 8 is unsubscribed. *)
Lemma unregister_removes_witness :
  ∃ hs',
    unregisterNewMessageHandler 0 "t1" 8 three_entries =
      (Normal (), (unregisterNewMessageHandler 0 "t1" 8 three_entries).2) ∧
    messagesHandlers (unregisterNewMessageHandler 0 "t1" 8 three_entries).2 0
      !! "t1" = Some hs' ∧
    (8 ∉ hs') ∧
    (hs' `sublist_of` [8; 7; 8]) ∧
    (∀ l, 8 ∉ l → l `sublist_of` [8; 7; 8] → l `sublist_of` hs') ∧
    (∀ this' uuid', ¬ (0 = this' ∧ "t1" = uuid') →
       messagesHandlers (unregisterNewMessageHandler 0 "t1" 8 three_entries).2
         this' !! uuid' = messagesHandlers three_entries this' !! uuid') ∧
    sentMessages (unregisterNewMessageHandler 0 "t1" 8 three_entries).2 =
      sentMessages three_entries ∧
    calls (unregisterNewMessageHandler 0 "t1" 8 three_entries).2 =
      calls three_entries.
Proof.
  apply (unregister_removes_exactly three_entries 0 "t1" 8 [8; 7; 8]).
  vm_compute. reflexivity.
Defined.

(** C8 at thread t1 whose only handler 7 leaves and handler 9 arrives. *)
Lemma empty_list_is_kept_witness :
  let σ1 := (unregisterNewMessageHandler 0 "t1" 7 one_sink).2 in
  let σ2 := (registerNewMessageHandler 0 9 "t1" σ1).2 in
  messagesHandlers σ1 0 !! "t1" = Some [] ∧
  registerNewMessageHandler 0 9 "t1" σ1 = (Normal (), σ2) ∧
  messagesHandlers σ2 0 !! "t1" = Some [9] ∧
  (∀ throws m,
     calls (_sendMessageToClients throws 0 "t1" m σ2).2 =
       calls σ2 ++ [(9, m)]) ∧
  (∀ throws m, seen σ2 (key_of m) = false →
     calls (sendOnce throws 0 "t1" m σ2).2 = calls σ2 ++ [(9, m)]).
Proof.
  apply (proj1 (empty_list_is_kept one_sink 0 "t1") [7] 7 9).
  - vm_compute. reflexivity.
  - intros h Hin. by apply list_elem_of_singleton in Hin.
Defined.

(** C9 at a turn on thread t1 with handlers 8 and 7. *)
Lemma delivery_order_witness :
  let hs := subscribers two_sinks 0 "t1" in
  let run :=
    messageReceived quiet 0 "hola" (on "t1") (growing a1 a2 a3) two_sinks in
  hs = [8; 7] ∧
  since two_sinks run.2 =
    [(8, a1); (7, a1); (8, a2); (7, a2); (8, a3); (7, a3)] ∧
  ∃ ms,
    ms `sublist_of` mjoin (snapshots (growing a1 a2 a3)) ∧
    calls run.2 = calls two_sinks ++ since two_sinks run.2 ∧
    since two_sinks run.2 `prefix_of` (ms ≫= fanout hs) ∧
    ((∀ h m, run.1 ≠ Throw (HandlerError h m)) →
     since two_sinks run.2 = ms ≫= fanout hs) ∧
    (∀ h, NoDup hs → h ∈ hs →
       (filter (λ c, c.1 = h) (since two_sinks run.2)).*2 `prefix_of` ms).
Proof.
  intros hs run. split; [by vm_compute|]. split; [by vm_compute|].
  exact (proj1 (delivery_follows_arrival_and_registration quiet 0 "hola"
                  (on "t1") (growing a1 a2 a3) two_sinks)).
Defined.


(** The shared cache at work: [a1] reached handler 7 on thread t1 of agent
    0, so handler 9 on thread t2 of agent 1 gets nothing when its own
    stream carries a message with that id; likewise for a second message
    without id. *)
Example another_agent_is_silenced :
  let σ1 := (messageReceived quiet 0 "hola" (on "t1") (growing a1 a2 a3)
               one_sink).2 in
  let σ2 := event_loop quiet [Connect 1 9 "t2"] σ1 in
  subscribers σ2 1 "t2" = [9] ∧
  messageReceived quiet 1 "hola" (on "t2")
    {| chunks := [snapshot [a1]]; failure := None |} σ2 = (Normal (), σ2).
Proof. split; by vm_compute. Qed.

Example second_anonymous_is_silenced :
  let σ1 := (messageReceived quiet 0 "hola" (on "t1")
               (growing anonymous a2 a3) one_sink).2 in
  let σ2 := event_loop quiet [Connect 1 9 "t2"] σ1 in
  subscribers σ2 1 "t2" = [9] ∧
  messageReceived quiet 1 "hola" (on "t2")
    {| chunks := [snapshot [anonymous']]; failure := None |} σ2 =
    (Normal (), σ2).
Proof. split; by vm_compute. Qed.

(** * Further properties *)

Section MoreOnTurns.

Variable throws : Handler → BaseMessage → bool.















End MoreOnTurns.

Section Fairness.

Variable throws : Handler → BaseMessage → bool.


End Fairness.

Section Lifecycle.

Variable throws : Handler → BaseMessage → bool.

Lemma run_task_subscribers_stream this uuid chunk σ this' uuid' :
  subscribers (run_task throws (Stream this uuid chunk) σ).2 this' uuid' =
  subscribers σ this' uuid'.
Proof. simpl. apply subscribers_agents, onChunk_agents. Qed.

Lemma filter_comm {A} (P Q : A → Prop) `{!∀ x, Decision (P x)}
    `{!∀ x, Decision (Q x)} (l : list A) :
  filter P (filter Q l) = filter Q (filter P l).
Proof.
  induction l as [|x l IH]; [done|].
  rewrite !(filter_cons _ x).
  destruct (decide (Q x)), (decide (P x));
    rewrite ?(filter_cons _ x), ?decide_True, ?decide_False by done;
    by rewrite ?IH.
Qed.

(** The lists of a store in which [handler] is subscribed to [uuid] on
    [this], seen without that handler. *)
Lemma run_task_without this handler uuid t σa σb :
  t ≠ Connect this handler uuid →
  (∀ this' uuid', subscribers σb this' uuid' =
     if decide (this = this' ∧ uuid = uuid')
     then filter (λ h, h ≠ handler) (subscribers σa this' uuid')
     else subscribers σa this' uuid') →
  ∀ this' uuid', subscribers (run_task throws t σb).2 this' uuid' =
     if decide (this = this' ∧ uuid = uuid')
     then filter (λ h, h ≠ handler)
            (subscribers (run_task throws t σa).2 this' uuid')
     else subscribers (run_task throws t σa).2 this' uuid'.
Proof.
  intros Hne HR this' uuid'.
  destruct t as [this0 h0 uuid0|this0 uuid0 h0|this0 uuid0 chunk].
  - cbn [run_task]. rewrite !subscribers_register.
    destruct (decide (this0 = this' ∧ uuid0 = uuid')) as [[<- <-]|Hother];
      [|apply HR].
    rewrite (HR this0 uuid0).
    destruct (decide (this = this0 ∧ uuid = uuid0)) as [[<- <-]|]; [|done].
    rewrite filter_app, filter_cons, decide_True; [done|].
    intros ->. by destruct Hne.
  - cbn [run_task]. rewrite !subscribers_unregister.
    destruct (decide (this0 = this' ∧ uuid0 = uuid')) as [[<- <-]|Hother];
      [|apply HR].
    rewrite (HR this0 uuid0).
    destruct (decide (this = this0 ∧ uuid = uuid0)) as [[<- <-]|]; [|done].
    apply filter_comm.
  - rewrite !run_task_subscribers_stream. apply HR.
Qed.

Lemma event_loop_without this handler uuid between σa σb :
  Connect this handler uuid ∉ between →
  (∀ this' uuid', subscribers σb this' uuid' =
     if decide (this = this' ∧ uuid = uuid')
     then filter (λ h, h ≠ handler) (subscribers σa this' uuid')
     else subscribers σa this' uuid') →
  ∀ this' uuid', subscribers (event_loop throws between σb) this' uuid' =
     if decide (this = this' ∧ uuid = uuid')
     then filter (λ h, h ≠ handler)
            (subscribers (event_loop throws between σa) this' uuid')
     else subscribers (event_loop throws between σa) this' uuid'.
Proof.
  revert σa σb. induction between as [|t between IH]; intros σa σb Hnot HR;
    [done|].
  rewrite not_elem_of_cons in Hnot. destruct Hnot as [Hne Hnot].
  simpl. apply IH; [done|]. apply run_task_without; [congruence|done].
Qed.

(** X5. A connection leaves no trace in the subscription lists.  A handler
    that was not on the thread is subscribed, anything happens meanwhile
    except a second subscription of that same handler to that thread, and
    the handler is unsubscribed: every list of every agent is then what it
    would be had the connection never existed. *)
Theorem connection_leaves_no_trace this handler uuid between σ :
  handler ∉ subscribers σ this uuid →
  Connect this handler uuid ∉ between →
  ∀ this' uuid',
    subscribers
      (event_loop throws
         (Connect this handler uuid :: between ++
            [Disconnect this uuid handler]) σ) this' uuid' =
    subscribers (event_loop throws between σ) this' uuid'.
Proof.
  intros Hfresh Hnot this' uuid'.
  change (Connect this handler uuid :: between ++ [Disconnect this uuid handler])
    with ([Connect this handler uuid] ++ between ++
            [Disconnect this uuid handler]).
  rewrite !event_loop_app.
  set (σa := event_loop throws [Connect this handler uuid] σ).
  assert (HR : ∀ this' uuid', subscribers σ this' uuid' =
     if decide (this = this' ∧ uuid = uuid')
     then filter (λ h, h ≠ handler) (subscribers σa this' uuid')
     else subscribers σa this' uuid').
  { intros this0 uuid0. unfold σa. cbn [event_loop foldl run_task].
    rewrite subscribers_register.
    destruct (decide (this = this0 ∧ uuid = uuid0)) as [[<- <-]|]; [|done].
    rewrite filter_app, filter_cons, decide_False by (intros Hn; by apply Hn).
    rewrite filter_nil, app_nil_r.
    symmetry. apply filter_keeps_all. by intros x Hx ->. }
  pose proof (event_loop_without this handler uuid between σa σ Hnot HR) as HR'.
  cbn [event_loop foldl run_task] in *.
  rewrite subscribers_unregister, (HR' this' uuid').
  destruct (decide (this = this' ∧ uuid = uuid')) as [[<- <-]|]; done.
Qed.


Lemma onChunk_calls_subscribers this uuid chunk σ h m :
  (h, m) ∈ since σ (onChunk throws this uuid chunk σ).2 →
  h ∈ subscribers σ this uuid.
Proof.
  destruct (onChunk_blocks throws this uuid chunk σ) as (ms & _ & Hp & _).
  intros Hin. destruct Hp as [k Hk].
  assert (Hin' : (h, m) ∈ ms ≫= fanout (subscribers σ this uuid)).
  { rewrite Hk, elem_of_app. by left. }
  apply list_elem_of_bind in Hin' as (m' & Hf & _).
  by apply list_elem_of_fmap in Hf as (h' & [= -> _] & ?).
Qed.

Lemma run_task_nowhere h t σ :
  (∀ this uuid, t ≠ Connect this h uuid) →
  (∀ this uuid, h ∉ subscribers σ this uuid) →
  (∀ m, (h, m) ∉ since σ (run_task throws t σ).2) ∧
  (∀ this uuid, h ∉ subscribers (run_task throws t σ).2 this uuid).
Proof.
  intros Hne Hno.
  destruct t as [this0 h0 uuid0|this0 uuid0 h0|this0 uuid0 chunk].
  - split.
    + intros m Hin. cbn [run_task] in Hin.
      rewrite (since_app _ _ []) in Hin by (simpl; by rewrite app_nil_r).
      by apply elem_of_nil in Hin.
    + intros this uuid. cbn [run_task]. rewrite subscribers_register.
      case_decide as Hd; [|apply Hno].
      rewrite elem_of_app, list_elem_of_singleton.
      intros [Hin| ->]; [by apply (Hno this0 uuid0)|by apply (Hne this0 uuid0)].
  - split.
    + intros m Hin. cbn [run_task] in Hin.
      destruct (unregisterNewMessageHandler_frame this0 uuid0 h0 σ) as [_ Hc].
      rewrite (since_app _ _ []) in Hin by (by rewrite app_nil_r).
      by apply elem_of_nil in Hin.
    + intros this uuid. cbn [run_task]. rewrite subscribers_unregister.
      case_decide as Hd; [|apply Hno].
      rewrite list_elem_of_filter. intros [_ Hin]. by apply (Hno this0 uuid0).
  - split.
    + intros m Hin. apply onChunk_calls_subscribers in Hin.
      by apply (Hno this0 uuid0).
    + intros this uuid. rewrite run_task_subscribers_stream. apply Hno.
Qed.

(** X7. A handler that is in no list is never called.  As long as it is not
    subscribed again, whatever else happens (other connections, closed
    connections, streamed chunks), no call goes to it; this is the state
    of a connection's handler once the connection has been closed. *)
Theorem unsubscribed_handler_is_never_called h future σ :
  (∀ this uuid, h ∉ subscribers σ this uuid) →
  (∀ this uuid, Connect this h uuid ∉ future) →
  (∀ m, (h, m) ∉ since σ (event_loop throws future σ)) ∧
  (∀ this uuid, h ∉ subscribers (event_loop throws future σ) this uuid).
Proof.
  revert σ. induction future as [|t future IH]; intros σ Hno Hfut.
  { split; [|done]. intros m. simpl. rewrite since_refl. apply not_elem_of_nil. }
  assert (Hne : ∀ this uuid, t ≠ Connect this h uuid).
  { intros this uuid ->. apply (Hfut this uuid). left. }
  destruct (run_task_nowhere h t σ Hne Hno) as [Hcalls Hno'].
  destruct (IH (run_task throws t σ).2 Hno') as [Hcalls' Hno''].
  { intros this uuid Hin. apply (Hfut this uuid). by right. }
  split; [|done]. intros m. simpl.
  rewrite (evolves_since_trans σ (run_task throws t σ).2);
    [|apply run_task_evolves|apply event_loop_evolves].
  rewrite elem_of_app. intros [Hin|Hin]; [by apply (Hcalls m)|by apply (Hcalls' m)].
Qed.

Lemma forEach_preserves {A} (R : relation Heap) `{!PreOrder R}
    (f : A → Js unit) l σ :
  (∀ x σ, R σ (f x σ).2) → R σ (forEach l f σ).2.
Proof.
  intros Hf. revert σ. induction l as [|x l IH]; intros σ; simpl; [done|].
  unfold mbind, Js_bind. specialize (Hf x σ).
  destruct (f x σ) as [[[]|e] σ1]; simpl in *; [|done].
  etrans; [done|apply IH].
Qed.

End Lifecycle.

Section Retention.

Variable throws : Handler → BaseMessage → bool.

#[global] Instance retains_preorder : PreOrder retains.
Proof.
  split.
  - by intros σ.
  - intros σ1 σ2 σ3 [K12 T12] [K23 T23]. split; eauto.
Qed.

Lemma retains_agents σ σ' :
  agents σ' = agents σ →
  (∀ key, is_Some (sentMessages σ !! key) → is_Some (sentMessages σ' !! key)) →
  retains σ σ'.
Proof.
  intros Hag Hk. split; [done|]. unfold messagesHandlers. by rewrite Hag.
Qed.

Lemma sendOnce_retains this uuid m σ :
  retains σ (sendOnce throws this uuid m σ).2.
Proof.
  destruct (sendOnce_shape throws this uuid m σ) as (called & _ & H).
  destruct (sendOnce _ _ _ _ σ) as [[[]|e] σ']; simpl.
  - destruct H as [[_ ->]|(_ & _ & ->)]; [done|].
    apply retains_agents; [done|]. intros key Hk. simpl.
    rewrite lookup_insert. by case_decide.
  - destruct H as (_ & -> & _). by apply retains_agents.
Qed.

Lemma run_task_retains t σ : retains σ (run_task throws t σ).2.
Proof.
  destruct t as [this h uuid|this uuid h|this uuid chunk]; cbn [run_task].
  - split; [done|]. intros this' uuid'.
    rewrite messagesHandlers_register. by case_decide.
  - destruct (unregisterNewMessageHandler_frame this uuid h σ) as [Hs _].
    split; [by rewrite Hs|]. intros this' uuid'.
    rewrite messagesHandlers_unregister.
    case_decide as Hd; [|done]. destruct Hd as [<- <-].
    intros [hs ->]. by eexists.
  - unfold onChunk. destruct (messages chunk); [|done].
    apply (forEach_preserves retains). intros. apply sendOnce_retains.
Qed.

(** X8. Nothing is ever evicted.  Through any history of subscriptions,
    unsubscriptions and streamed chunks, a key of the cache stays in the
    cache and stays true once true, a thread that has an entry in an
    agent's table keeps one, and the calls made are never taken back. *)
Theorem nothing_is_ever_evicted tasks σ :
  let σ' := event_loop throws tasks σ in
  (∀ key, is_Some (sentMessages σ !! key) → is_Some (sentMessages σ' !! key)) ∧
  (∀ key, seen σ key = true → seen σ' key = true) ∧
  (∀ this uuid, is_Some (messagesHandlers σ this !! uuid) →
                is_Some (messagesHandlers σ' this !! uuid)) ∧
  calls σ `prefix_of` calls σ'.
Proof.
  intros σ'.
  assert (Hret : retains σ σ').
  { unfold σ'. clear σ'. revert σ.
    induction tasks as [|t tasks IH]; intros σ; [done|].
    simpl. etrans; [apply run_task_retains|apply IH]. }
  pose proof (event_loop_evolves throws tasks σ) as Hev. fold σ' in Hev.
  split; [apply Hret|]. split; [apply Hev|]. split; [apply Hret|].
  rewrite (evolves_calls _ _ Hev). by eexists.
Qed.

End Retention.

Lemma slice_last_length {A} n (l : list A) :
  length (slice_last n l) = length l `min` n.
Proof. unfold slice_last. rewrite length_drop. lia. Qed.

Lemma slice_last_suffix {A} n (l : list A) : slice_last n l `suffix_of` l.
Proof. apply suffix_drop. Qed.

Lemma slice_last_all {A} n (l : list A) : length l ≤ n → slice_last n l = l.
Proof.
  intros H. unfold slice_last. by replace (length l - n) with 0 by lia.
Qed.

Lemma newMessages_shape messages :
  3 < length messages →
  ∃ firstMsg rest older r1 r2 r3 r4,
    messages = firstMsg :: rest ∧
    messages = older ++ [r1; r2; r3; r4] ∧
    newMessages messages = [firstMsg; r1; r2; r3; r4].
Proof.
  intros H.
  destruct (slice_last_suffix 4 messages) as [older Holder].
  pose proof (slice_last_length 4 messages) as Hlen.
  destruct (slice_last 4 messages) as [|r1 [|r2 [|r3 [|r4 [|??]]]]] eqn:Es;
    simpl in Hlen; try lia.
  destruct messages as [|firstMsg rest]; [simpl in H; lia|].
  exists firstMsg, rest, older, r1, r2, r3, r4.
  split; [done|]. split; [done|].
  unfold newMessages. by rewrite Es.
Qed.

(** X9. A state of at most three messages is left alone.  Otherwise the
    update is the remove-all marker followed by exactly five messages: the
    first message of the state, then its last four in their order. *)
Theorem trimMessages_keeps_first_and_last_four REMOVE_ALL_MESSAGES messages :
  (length messages ≤ 3 → trimMessages REMOVE_ALL_MESSAGES messages = None) ∧
  (3 < length messages →
   ∃ firstMsg rest older r1 r2 r3 r4,
     messages = firstMsg :: rest ∧
     messages = older ++ [r1; r2; r3; r4] ∧
     trimMessages REMOVE_ALL_MESSAGES messages =
       Some [RemoveMessage REMOVE_ALL_MESSAGES; Message firstMsg;
             Message r1; Message r2; Message r3; Message r4]).
Proof.
  unfold trimMessages. split.
  - intros H. by rewrite bool_decide_eq_true_2.
  - intros H. rewrite bool_decide_eq_false_2 by lia.
    destruct (newMessages_shape messages H)
      as (firstMsg & rest & older & r1 & r2 & r3 & r4 & E1 & E2 & Hnew).
    exists firstMsg, rest, older, r1, r2, r3, r4.
    by rewrite Hnew.
Qed.

(** X10. With exactly four messages nothing is trimmed: the five messages of
    the update are the first message followed by all four, so the first is
    there twice.  From five messages on, the five kept messages are a
    subsequence of the state. *)
Theorem trimMessages_four_or_more messages :
  (length messages = 4 →
   ∃ firstMsg rest, messages = firstMsg :: rest ∧
     newMessages messages = firstMsg :: firstMsg :: rest) ∧
  (5 ≤ length messages →
   newMessages messages `sublist_of` messages ∧
   length (newMessages messages) = 5).
Proof.
  split.
  - intros H. destruct messages as [|firstMsg rest]; [done|].
    exists firstMsg, rest. split; [done|].
    unfold newMessages. by rewrite slice_last_all by lia.
  - intros H. destruct messages as [|firstMsg rest]; [simpl in H; lia|].
    unfold newMessages, slice_last.
    replace (length (firstMsg :: rest) - 4) with (S (length rest - 4))
      by (simpl in *; lia).
    simpl. split.
    + apply sublist_skip, sublist_drop.
    + rewrite length_drop. simpl in H. lia.
Qed.

(** X11. The kept list starts with the first message of the state and ends
    with its last one; trimming the kept list keeps all of it, so the
    hook settles after one application. *)
Theorem trimMessages_settles messages :
  3 < length messages →
  head (newMessages messages) = head messages ∧
  last (newMessages messages) = last messages ∧
  newMessages (newMessages messages) = newMessages messages.
Proof.
  intros H.
  destruct (newMessages_shape messages H)
    as (firstMsg & rest & older & r1 & r2 & r3 & r4 & E1 & E2 & Hnew).
  rewrite Hnew. split; [by rewrite E1|]. split; [|done].
  rewrite E2, last_app. done.
Qed.

(** ** Counting words *)


Lemma split_white_space_head s :
  ∃ piece pieces,
    split_white_space s = piece :: pieces ∧
    (piece = [] ↔ begins_word s = false).
Proof.
  induction s as [|c s IH].
  { exists [], []. done. }
  simpl. destruct (is_white_space c) eqn:Hc; simpl.
  - destruct s as [|c' s'].
    + exists [], [[]]. done.
    + destruct (is_white_space c') eqn:Hc'.
      * destruct IH as (piece & pieces & -> & Hp). simpl in Hp. rewrite Hc' in Hp.
        exists piece, pieces. split; [done|]. simpl in *. tauto.
      * exists [], (split_white_space (c' :: s')). done.
  - destruct IH as (piece & pieces & -> & _).
    exists (c :: piece), pieces. split; [done|]. split; done.
Qed.

Lemma words_of_pieces_white c s :
  is_white_space c = true →
  length (filter_Boolean (split_white_space (c :: s))) =
  length (filter_Boolean (split_white_space s)).
Proof.
  intros Hc. simpl. rewrite Hc. destruct s as [|c' s']; [done|].
  destruct (is_white_space c') eqn:Hc'; [done|].
  unfold filter_Boolean. by rewrite filter_cons, decide_False by (by intros ?).
Qed.

Lemma words_of_pieces_word c s :
  is_white_space c = false →
  length (filter_Boolean (split_white_space (c :: s))) =
  length (filter_Boolean (split_white_space s)) +
    (if begins_word s then 0 else 1).
Proof.
  intros Hc. cbn [split_white_space]. rewrite Hc.
  destruct (split_white_space_head s) as (piece & pieces & -> & Hp).
  unfold filter_Boolean. rewrite !filter_cons.
  rewrite decide_True by done. simpl.
  destruct (begins_word s).
  - rewrite decide_True; [simpl; lia|]. intros ->.
    by pose proof (proj1 Hp eq_refl).
  - rewrite decide_False; [lia|]. intros Hne. by apply Hne, Hp.
Qed.

Lemma words_of_pieces_starts s :
  length (filter_Boolean (split_white_space s)) = word_starts true s ∧
  word_starts true s = word_starts false s + (if begins_word s then 1 else 0).
Proof.
  induction s as [|c s [IH1 IH2]]; [done|].
  destruct (is_white_space c) eqn:Hc.
  - rewrite words_of_pieces_white by done. simpl. rewrite Hc. simpl.
    split; [done|lia].
  - rewrite words_of_pieces_word by done. simpl. rewrite Hc. simpl.
    split; [|lia]. rewrite IH1, IH2. destruct (begins_word s); lia.
Qed.

Lemma word_starts_trimStart s : word_starts true (trimStart s) = word_starts true s.
Proof.
  induction s as [|c s IH]; [done|]. simpl.
  destruct (is_white_space c) eqn:Hc; [done|]. simpl. by rewrite Hc.
Qed.

Lemma trimStart_spec s :
  ∃ white, s = white ++ trimStart s ∧
           Forall (λ c, is_white_space c = true) white ∧
           begins_word (trimStart s) = negb (bool_decide (trimStart s = [])).
Proof.
  induction s as [|c s (white & Hs & Hw & Hb)].
  { exists []. done. }
  simpl. destruct (is_white_space c) eqn:Hc.
  - exists (c :: white). split; [simpl; congruence|]. split; [by constructor|done].
  - exists []. split; [done|]. split; [done|]. simpl. by rewrite Hc.
Qed.

Lemma word_starts_app_white after s white :
  Forall (λ c, is_white_space c = true) white →
  word_starts after (s ++ white) = word_starts after s.
Proof.
  intros Hw. revert after. induction s as [|c s IH]; intros after; simpl.
  - revert after. induction Hw as [|c white Hc _ IH]; intros after; [done|].
    simpl. rewrite Hc. apply IH.
  - destruct (is_white_space c); by rewrite IH.
Qed.

Lemma trimEnd_spec s :
  ∃ white, s = trimEnd s ++ white ∧
           Forall (λ c, is_white_space c = true) white.
Proof.
  unfold trimEnd.
  destruct (trimStart_spec (reverse s)) as (white & Hs & Hw & _).
  exists (reverse white). split.
  - rewrite <- reverse_app, <- Hs. by rewrite reverse_involutive.
  - by apply Forall_reverse.
Qed.

Lemma word_starts_trim s : word_starts true (trim s) = word_starts true s.
Proof.
  unfold trim. destruct (trimEnd_spec (trimStart s)) as (white & Hs & Hw).
  rewrite <- (word_starts_trimStart s). rewrite Hs at 2.
  by rewrite word_starts_app_white.
Qed.

(** X12. The count is the number of word starts of the text: the characters
    that are not white space and stand first or right after white space.
    It never exceeds half the length rounded up. *)
Theorem words_counts_word_starts texto :
  words texto = word_starts true texto ∧
  2 * words texto ≤ length texto + 1.
Proof.
  assert (H1 : words texto = word_starts true texto).
  { unfold words. rewrite (proj1 (words_of_pieces_starts _)).
    apply word_starts_trim. }
  split; [done|]. rewrite H1. clear H1.
  assert (H : ∀ s, 2 * word_starts false s ≤ length s ∧
                   2 * word_starts true s ≤ length s + 1).
  { induction s as [|c s [IH1 IH2]]; [simpl; lia|].
    simpl. destruct (is_white_space c); simpl; lia. }
  apply H.
Qed.

Lemma word_starts_none s :
  word_starts true s = 0 ↔ Forall (λ c, is_white_space c = true) s.
Proof.
  induction s as [|c s IH]; [by split; [constructor|]|].
  simpl. destruct (is_white_space c) eqn:Hc.
  - rewrite IH. split; [by constructor|by inversion 1].
  - split; [simpl; lia|]. inversion 1; congruence.
Qed.

Lemma code_units_inj : Inj (=) (=) code_units.
Proof.
  intros s1 s2 H. unfold code_units in H.
  rewrite <- (String.string_of_list_ascii_of_string s1),
          <- (String.string_of_list_ascii_of_string s2).
  f_equal. revert H. generalize (String.list_ascii_of_string s2).
  induction (String.list_ascii_of_string s1) as [|a l IH];
    intros [|b k]; simpl; intros H; try done.
  injection H as Hab Hlk. f_equal; [|by apply IH].
  by rewrite <- (Ascii.ascii_N_embedding a), Hab, Ascii.ascii_N_embedding.
Qed.

(** X13. A text made of white space only, the empty text included, has no
    words, and only such texts: the tool answers "0" exactly for them. *)
Theorem wordCountTool_blank texto :
  (Forall (λ c, is_white_space c = true) texto ↔ words texto = 0) ∧
  (Forall (λ c, is_white_space c = true) texto ↔
   wordCountTool texto = code_units "0").
Proof.
  assert (H : Forall (λ c, is_white_space c = true) texto ↔ words texto = 0).
  { rewrite (proj1 (words_counts_word_starts texto)).
    symmetry. apply word_starts_none. }
  split; [done|]. rewrite H. unfold wordCountTool. split.
  - by intros ->.
  - intros Heq. apply code_units_inj in Heq.
    by apply (inj pretty (words texto) 0).
Qed.

Lemma word_starts_white_prefix white s :
  white ≠ [] → Forall (λ c, is_white_space c = true) white →
  ∀ after, word_starts after (white ++ s) = word_starts true s.
Proof.
  intros Hne Hw. induction Hw as [|c white Hc Hw IH]; [done|].
  intros after. simpl. rewrite Hc.
  destruct white as [|c' white']; [done|]. by apply IH.
Qed.

Lemma word_starts_join a sep b after :
  sep ≠ [] → Forall (λ c, is_white_space c = true) sep →
  word_starts after (a ++ sep ++ b) =
  word_starts after a + word_starts true b.
Proof.
  intros Hne Hw. revert after. induction a as [|c a IH]; intros after.
  - simpl. by apply word_starts_white_prefix.
  - simpl. destruct (is_white_space c); rewrite IH; lia.
Qed.

(** X14. Words add up across white space, however much of it there is:
    joining two texts with a non-empty run of white space gives the sum
    of their counts.  A non-empty text without white space is one word. *)
Theorem words_of_joined_texts a sep b :
  (sep ≠ [] → Forall (λ c, is_white_space c = true) sep →
   words (a ++ sep ++ b) = words a + words b) ∧
  (a ≠ [] → Forall (λ c, is_white_space c = false) a → words a = 1).
Proof.
  split.
  - intros Hne Hw.
    rewrite !(proj1 (words_counts_word_starts _)).
    by apply word_starts_join.
  - intros Hne Ha. rewrite (proj1 (words_counts_word_starts _)).
    destruct Ha as [|c a Hc Ha]; [done|]. simpl. rewrite Hc.
    assert (H0 : word_starts false a = 0).
    { clear Hne. induction Ha as [|c' a Hc' Ha IH]; [done|].
      simpl. by rewrite Hc'. }
    by rewrite H0.
Qed.


Lemma ends_word_cons c c' s : ends_word (c :: c' :: s) = ends_word (c' :: s).
Proof. done. Qed.

Lemma split_white_space_cons_word c s :
  is_white_space c = false →
  split_white_space (c :: s) =
  match split_white_space s with
  | piece :: pieces => (c :: piece) :: pieces
  | [] => [[c]]
  end.
Proof. intros Hc. cbn [split_white_space]. by rewrite Hc. Qed.

Lemma split_white_space_cons_white c c' s :
  is_white_space c = true →
  split_white_space (c :: c' :: s) =
  if is_white_space c' then split_white_space (c' :: s)
  else [] :: split_white_space (c' :: s).
Proof.
  intros Hc. change (split_white_space (c :: c' :: s)) with
    (if is_white_space c then
       if is_white_space c' then split_white_space (c' :: s)
       else [] :: split_white_space (c' :: s)
     else match split_white_space (c' :: s) with
          | piece :: pieces => (c :: piece) :: pieces
          | [] => [[c]]
          end).
  by rewrite Hc.
Qed.

Lemma split_white_space_tail s :
  ends_word s = true →
  Forall (λ piece, piece ≠ []) (tail (split_white_space s)).
Proof.
  induction s as [|c s IH]; [done|].
  destruct s as [|c' s'].
  - unfold ends_word. simpl. intros Hc. apply negb_true_iff in Hc.
    rewrite Hc. by constructor.
  - rewrite ends_word_cons. intros Hend. specialize (IH Hend).
    destruct (split_white_space_head (c' :: s')) as (piece & pieces & E & Hp).
    destruct (is_white_space c) eqn:Hc.
    + rewrite split_white_space_cons_white by done.
      destruct (is_white_space c') eqn:Hc'; [done|].
      rewrite E in *. simpl in *. constructor; [|done].
      intros ->. rewrite Hc' in Hp. by pose proof (proj1 Hp eq_refl).
    + rewrite split_white_space_cons_word by done.
      rewrite E in *. done.
Qed.

Lemma split_white_space_word s :
  begins_word s = true → ends_word s = true →
  Forall (λ piece, piece ≠ []) (split_white_space s).
Proof.
  intros Hb He. pose proof (split_white_space_tail s He) as Ht.
  destruct (split_white_space_head s) as (piece & pieces & E & Hp).
  rewrite E in *. constructor; [|done].
  intros ->. rewrite Hb in Hp. by pose proof (proj1 Hp eq_refl).
Qed.

Lemma ends_word_reverse s : ends_word (reverse s) = begins_word s.
Proof. unfold ends_word. rewrite last_reverse. by destruct s. Qed.

Lemma trimStart_blank s :
  trimStart s = [] ↔ Forall (λ c, is_white_space c = true) s.
Proof.
  induction s as [|c s IH]; [by split; [constructor|]|].
  simpl. destruct (is_white_space c) eqn:Hc.
  - rewrite IH. split; [by constructor|by inversion 1].
  - split; [done|]. inversion 1; congruence.
Qed.

Lemma trim_word texto :
  ¬ Forall (λ c, is_white_space c = true) texto →
  begins_word (trim texto) = true ∧ ends_word (trim texto) = true.
Proof.
  intros Hnb. unfold trim.
  destruct (trimStart_spec texto) as (white & _ & _ & Hb).
  assert (Hne : trimStart texto ≠ []) by by rewrite trimStart_blank.
  rewrite bool_decide_eq_false_2 in Hb by done. simpl in Hb.
  set (t := trimStart texto) in *.
  destruct (trimEnd_spec t) as (white' & Ht & Hw').
  destruct (trimStart_spec (reverse t)) as (_ & _ & _ & Hb').
  assert (Hne' : trimEnd t ≠ []).
  { intros E. rewrite E in Ht. simpl in Ht. subst white'.
    destruct t as [|c t']; [done|]. simpl in Hb.
    inversion Hw' as [|?? Hc]. by rewrite Hc in Hb. }
  split.
  - destruct (trimEnd t) as [|c u] eqn:E; [done|].
    rewrite Ht in Hb. done.
  - unfold trimEnd in *. rewrite ends_word_reverse, Hb'.
    rewrite bool_decide_eq_false_2; [done|].
    intros E. rewrite E in Hne'. done.
Qed.

(** X15. [trim] and [filter(Boolean)] only guard the edges.  Dropping [trim]
    gives the same count.  For a text that is not blank the trimmed text
    splits into non-empty pieces only, so the filter removes nothing; for
    a blank text the split is the single empty piece, which the filter
    removes. *)
Theorem words_edge_guards texto :
  words texto = length (filter_Boolean (split_white_space texto)) ∧
  (¬ Forall (λ c, is_white_space c = true) texto →
   Forall (λ piece, piece ≠ []) (split_white_space (trim texto)) ∧
   words texto = length (split_white_space (trim texto))) ∧
  (Forall (λ c, is_white_space c = true) texto →
   split_white_space (trim texto) = [[]]).
Proof.
  split; [|split].
  - rewrite (proj1 (words_counts_word_starts _)).
    by rewrite (proj1 (words_of_pieces_starts _)).
  - intros Hnb. destruct (trim_word texto Hnb) as [Hb He].
    pose proof (split_white_space_word _ Hb He) as Hall.
    split; [done|]. unfold words, filter_Boolean.
    by rewrite filter_keeps_all by by apply Forall_forall.
  - intros Hblank. apply trimStart_blank in Hblank.
    unfold trim, trimEnd. by rewrite Hblank.
Qed.

(** ** Cleaning the page content *)

Lemma collapse_newlines_cons c c' s :
  collapse_newlines (c :: c' :: s) =
  if bool_decide (c = 10%N) && bool_decide (c' = 10%N)
  then collapse_newlines (c' :: s)
  else c :: collapse_newlines (c' :: s).
Proof. done. Qed.

Lemma has_blank_line_cons c c' s :
  has_blank_line (c :: c' :: s) =
  (bool_decide (c = 10%N) && bool_decide (c' = 10%N))
  || has_blank_line (c' :: s).
Proof. done. Qed.

Lemma collapse_newlines_head c s :
  ∃ r, collapse_newlines (c :: s) = c :: r.
Proof.
  revert c. induction s as [|c' s IH]; intros c; [by exists []|].
  rewrite collapse_newlines_cons.
  destruct (bool_decide (c = 10%N) && bool_decide (c' = 10%N)) eqn:E.
  - apply andb_true_iff in E as [Hc Hc'].
    apply bool_decide_eq_true in Hc, Hc'. subst. apply IH.
  - by eexists.
Qed.

(** X16. After the cleaning no two line feeds stand side by side, every
    other character is where it was relative to the others, and the only
    thing removed is line feeds: the result is a subsequence of the text
    with the same characters other than line feeds. *)
Theorem collapse_newlines_result s :
  has_blank_line (collapse_newlines s) = false ∧
  (collapse_newlines s `sublist_of` s) ∧
  filter (λ c, c ≠ 10%N) (collapse_newlines s) = filter (λ c, c ≠ 10%N) s.
Proof.
  induction s as [|c s (IH1 & IH2 & IH3)]; [done|].
  destruct s as [|c' s']; [done|].
  rewrite collapse_newlines_cons.
  destruct (bool_decide (c = 10%N) && bool_decide (c' = 10%N)) eqn:E.
  - apply andb_true_iff in E as [Hc Hc'].
    apply bool_decide_eq_true in Hc. subst c.
    split; [done|]. split; [by apply sublist_cons|].
    rewrite (filter_cons _ 10%N), decide_False; [done|]. by intros H.
  - destruct (collapse_newlines_head c' s') as [r Hr]. rewrite Hr in *.
    split; [|split].
    + rewrite has_blank_line_cons, E. done.
    + by apply sublist_skip.
    + rewrite !(filter_cons _ c). by rewrite IH3.
Qed.

(** X17. A text without two line feeds in a row is left as it is, and only
    such a text; so cleaning a second time changes nothing. *)
Theorem collapse_newlines_fixed_points s :
  (collapse_newlines s = s ↔ has_blank_line s = false) ∧
  collapse_newlines (collapse_newlines s) = collapse_newlines s.
Proof.
  assert (Hfix : ∀ t, has_blank_line t = false → collapse_newlines t = t).
  { induction t as [|c t IH]; [done|]. destruct t as [|c' t']; [done|].
    rewrite has_blank_line_cons, collapse_newlines_cons.
    intros [-> Ht]%orb_false_iff. by rewrite IH. }
  split; [|apply Hfix, collapse_newlines_result].
  split; [|apply Hfix].
  intros <-. apply collapse_newlines_result.
Qed.

(** ** Deleting the old vectors *)

(** X18. The loop requests deletions url by url and stops at the first one
    that fails.  If none fails every url is requested, in order.  If the
    first failure has status 404 or a message containing "not found", the
    loop is left quietly and the script goes on; any other failure is
    thrown on.  In both cases no deletion is requested for the urls after
    the failing one. *)
Theorem delete_existing_stops_at_first_failure delete urls :
  match delete_existing delete urls with
  | (requested, AllDeleted) =>
      requested = urls ∧ Forall (λ url, delete url = None) urls
  | (requested, CollectionMissing) =>
      ∃ before url rest error,
        urls = before ++ url :: rest ∧ requested = before ++ [url] ∧
        Forall (λ url, delete url = None) before ∧
        delete url = Some error ∧ collection_is_missing error = true
  | (requested, DeleteFailed error) =>
      ∃ before url rest,
        urls = before ++ url :: rest ∧ requested = before ++ [url] ∧
        Forall (λ url, delete url = None) before ∧
        delete url = Some error ∧ collection_is_missing error = false
  end.
Proof.
  induction urls as [|url urls IH]; [done|].
  simpl. destruct (delete url) as [error|] eqn:Hd.
  - destruct (collection_is_missing error) eqn:Hm.
    + by exists [], url, urls, error.
    + by exists [], url, urls.
  - destruct (delete_existing delete urls) as [requested [| |error]].
    + destruct IH as [-> Hall]. split; [done|by constructor].
    + destruct IH as (before & u & rest & error & -> & -> & Hall & Hu & Hm).
      exists (url :: before), u, rest, error.
      split; [done|]. split; [done|]. split; [by constructor|done].
    + destruct IH as (before & u & rest & -> & -> & Hall & Hu & Hm).
      exists (url :: before), u, rest.
      split; [done|]. split; [done|]. split; [by constructor|done].
Qed.

Section HomeworkLoop.

Context {Args : Type} (world : Collaborators Args).

Lemma process_calls_app response calls messages :
  match process_calls world response calls messages with
  | Some messages' =>
      ∃ results,
        Forall2 (λ call result, resultado world call = Some result)
          calls results ∧
        messages' = messages ++
          mjoin (zip_with (answer_to response) calls results)
  | None => ∃ call, call ∈ calls ∧ resultado world call = None
  end.
Proof.
  revert messages. induction calls as [|call calls IH]; intros messages.
  { simpl. exists []. split; [constructor|by rewrite app_nil_r]. }
  simpl. destruct (resultado world call) as [result|] eqn:Hr.
  - specialize (IH (messages ++ answer_to response call result)).
    destruct (process_calls _ _ _ _) as [messages'|].
    + destruct IH as (results & Hall & ->).
      exists (result :: results). split; [by constructor|].
      simpl. by rewrite <- app_assoc.
    + destruct IH as (c & Hc & Hn). exists c. split; [by right|done].
  - exists call. split; [left|done].
Qed.

Lemma process_calls_last response calls messages messages' :
  calls ≠ [] →
  process_calls world response calls messages = Some messages' →
  ∃ earlier result id, messages' = earlier ++ [ToolMessage result id].
Proof.
  revert messages. induction calls as [|call calls IH]; intros messages Hne;
    [done|].
  simpl. destruct (resultado world call) as [result|]; [|done].
  destruct calls as [|call' calls'].
  - simpl. intros [= <-]. unfold answer_to. rewrite app_assoc. by eexists _, _, _.
  - by apply IH.
Qed.

Lemma resultado_unknown call :
  resultado world call = None →
  name call ∈ ["contar_palabras"; "wikipedia-api"; "calculator"]%string.
Proof.
  unfold resultado. repeat case_bool_decide; try done; intros _; set_solver.
Qed.

(** X19. Every tool call of a response is answered in turn.  When no tool
    throws, the history grows by one block per call, in the order of the
    calls: the partial text of the response if it has one (so once per
    call), then a [ToolMessage] carrying that call's id and its tool's
    answer.  The loop is left by a throw only when one of the three known
    tools throws; a call to a tool of another name is answered with an
    error text. *)
Theorem every_tool_call_is_answered response calls messages :
  match process_calls world response calls messages with
  | Some messages' =>
      ∃ results,
        Forall2 (λ call result, resultado world call = Some result)
          calls results ∧
        messages' = messages ++
          mjoin (zip_with (answer_to response) calls results)
  | None =>
      ∃ call, call ∈ calls ∧ resultado world call = None ∧
        name call ∈ ["contar_palabras"; "wikipedia-api"; "calculator"]%string
  end.
Proof.
  pose proof (process_calls_app response calls messages) as H.
  destruct (process_calls _ _ _ _); [done|].
  destruct H as (call & Hin & Hn). exists call.
  split; [done|]. split; [done|]. by apply resultado_unknown.
Qed.

Lemma agent_loop_facts remaining i messages :
  let run := agent_loop world remaining i messages in
  i ≤ iteracion run ≤ i + remaining ∧
  (0 < remaining → i < iteracion run) ∧
  (exit run ≠ Crashed → messages `prefix_of` history run) ∧
  match exit run with
  | ModelDone =>
      ∃ earlier response,
        history run = earlier ++ [Reply response] ∧
        modelWithTools world earlier = Some response ∧
        (tool_calls response = None ∨ tool_calls response = Some [])
  | LimitReached =>
      iteracion run = i + remaining ∧
      (remaining = 0 ∧ history run = messages ∨
       ∃ earlier result id, history run = earlier ++ [ToolMessage result id])
  | Crashed => True
  end.
Proof.
  revert i messages. induction remaining as [|remaining IH]; intros i messages.
  { simpl. split; [lia|]. split; [lia|]. split; [done|]. split; [lia|by left]. }
  simpl. destruct (modelWithTools world messages) as [response|] eqn:Hm;
    [|simpl; split; [lia|]; split; [lia|]; done].
  destruct (tool_calls response) as [[|call calls]|] eqn:Hc;
    try (simpl; split; [lia|]; split; [lia|];
         split; [intros _; by apply prefix_app_r|];
         exists messages, response; rewrite Hc; auto).
  destruct (process_calls world response (call :: calls)
              (messages ++ [Reply response])) as [messages'|] eqn:Hp;
    [|simpl; split; [lia|]; split; [lia|]; done].
  specialize (IH (S i) messages'). simpl in IH.
  destruct IH as (Hi & _ & Hpre & Hexit).
  split; [lia|]. split; [lia|]. split.
  { intros Hok. etrans; [|by apply Hpre].
    pose proof (process_calls_app response (call :: calls)
                  (messages ++ [Reply response])) as Happ.
    rewrite Hp in Happ. destruct Happ as (results & _ & ->).
    rewrite <- app_assoc. by apply prefix_app_r. }
  destruct (exit (agent_loop world remaining (S i) messages')); [done| |done].
  destruct Hexit as (Hit & Hlast). split; [lia|]. right.
  destruct Hlast as [[_ ->]|Hlast]; [|done].
  by apply (process_calls_last response (call :: calls)
              (messages ++ [Reply response])).
Qed.

(** X20. The loop is bounded and only appends.  The model is asked at least
    once and at most [MAX_ITERACIONES] = 6 times; unless the script dies,
    the messages it started with are still the beginning of the history. *)
Theorem homework_loop_is_bounded messages :
  let run := homework_loop world messages in
  1 ≤ iteracion run ≤ MAX_ITERACIONES ∧
  (exit run ≠ Crashed → messages `prefix_of` history run).
Proof.
  intros run. unfold run, homework_loop.
  destruct (agent_loop_facts MAX_ITERACIONES 0 messages)
    as (H1 & H2 & H3 & _).
  split; [|done]. unfold MAX_ITERACIONES in *. lia.
Qed.


End HomeworkLoop.

(** ** The further properties on concrete inputs *)

Lemma subscribers_initial this uuid : subscribers initial this uuid = [].
Proof. unfold subscribers, messagesHandlers. simpl. by rewrite lookup_empty. Qed.





(** X5 at a connection with handler 9 on thread t1 during which a chunk
    arrives and handler 5 connects. *)
Lemma connection_leaves_no_trace_witness :
  subscribers
    (event_loop quiet
       (Connect 0 9 "t1" ::
          [Stream 0 "t1" (snapshot [a1]); Connect 0 5 "t1"] ++
          [Disconnect 0 "t1" 9]) one_sink) 0 "t1" =
  subscribers
    (event_loop quiet [Stream 0 "t1" (snapshot [a1]); Connect 0 5 "t1"]
       one_sink) 0 "t1".
Proof.
  apply (connection_leaves_no_trace quiet 0 9 "t1"
           [Stream 0 "t1" (snapshot [a1]); Connect 0 5 "t1"] one_sink).
  - by_evaluation.
  - apply not_elem_of_cons. split; [discriminate|].
    apply not_elem_of_cons. split; [discriminate|]. apply not_elem_of_nil.
Defined.


(** X7 at handler 9 of a fresh process, while handler 7 connects and a
    chunk arrives. *)
Lemma unsubscribed_handler_witness :
  (∀ m, (9, m) ∉ since initial
          (event_loop quiet
             [Connect 0 7 "t1"; Stream 0 "t1" (snapshot [a1])] initial)) ∧
  (∀ this uuid, 9 ∉ subscribers
          (event_loop quiet
             [Connect 0 7 "t1"; Stream 0 "t1" (snapshot [a1])] initial)
          this uuid).
Proof.
  apply (unsubscribed_handler_is_never_called quiet 9
           [Connect 0 7 "t1"; Stream 0 "t1" (snapshot [a1])] initial).
  - intros this uuid. rewrite subscribers_initial. apply not_elem_of_nil.
  - intros this uuid.
    apply not_elem_of_cons. split; [discriminate|].
    apply not_elem_of_cons. split; [discriminate|]. apply not_elem_of_nil.
Defined.

(** X8 at a history with a disconnection and a stream. *)
Lemma nothing_is_ever_evicted_witness :
  let σ' := event_loop quiet
              [Disconnect 0 "t1" 7; Stream 0 "t1" (snapshot [a2])]
              one_sink_later in
  is_Some (sentMessages σ' !! "a1") ∧
  seen σ' "a1" = true ∧
  is_Some (messagesHandlers σ' 0 !! "t1").
Proof.
  intros σ'.
  destruct (nothing_is_ever_evicted quiet
              [Disconnect 0 "t1" 7; Stream 0 "t1" (snapshot [a2])]
              one_sink_later) as (Hkeys & Hseen & Hthreads & _).
  split; [|split].
  - apply Hkeys. vm_compute. by eexists.
  - apply Hseen. vm_compute. reflexivity.
  - apply Hthreads. vm_compute. by eexists.
Defined.

(** X9 at six messages. *)
Lemma trimMessages_witness :
  ∃ firstMsg rest older r1 r2 r3 r4,
    six_messages = firstMsg :: rest ∧
    six_messages = older ++ [r1; r2; r3; r4] ∧
    trimMessages "__remove_all__" six_messages =
      Some [RemoveMessage "__remove_all__"; Message firstMsg;
            Message r1; Message r2; Message r3; Message r4].
Proof.
  apply (proj2 (trimMessages_keeps_first_and_last_four "__remove_all__"
                  six_messages)).
  vm_compute. lia.
Defined.

(** X10 at four and at six messages. *)
Lemma trimMessages_four_or_more_witness :
  (∃ firstMsg rest, four_messages = firstMsg :: rest ∧
     newMessages four_messages = firstMsg :: firstMsg :: rest) ∧
  (newMessages six_messages `sublist_of` six_messages) ∧
  length (newMessages six_messages) = 5.
Proof.
  split.
  - apply (proj1 (trimMessages_four_or_more four_messages)). reflexivity.
  - apply (proj2 (trimMessages_four_or_more six_messages)). vm_compute. lia.
Defined.

(** X11 at six messages. *)
Lemma trimMessages_settles_witness :
  head (newMessages six_messages) = head six_messages ∧
  last (newMessages six_messages) = last six_messages ∧
  newMessages (newMessages six_messages) = newMessages six_messages.
Proof. apply (trimMessages_settles six_messages). vm_compute. lia. Defined.

(** X13 at a text of three blanks. *)
Lemma wordCountTool_blank_witness :
  wordCountTool (code_units "   ") = code_units "0".
Proof.
  apply (proj1 (proj2 (wordCountTool_blank (code_units "   ")))).
  by_evaluation.
Defined.

(** X14 at two texts joined by a blank and a line feed. *)
Lemma words_of_joined_texts_witness :
  words (code_units "hola mundo" ++ [32; 10]%N ++ code_units "adios") =
  words (code_units "hola mundo") + words (code_units "adios").
Proof.
  apply (proj1 (words_of_joined_texts (code_units "hola mundo") [32; 10]%N
                  (code_units "adios"))).
  - discriminate.
  - by_evaluation.
Defined.

(** X15 at a text with blanks around and between its words. *)
Lemma words_edge_guards_witness :
  Forall (λ piece, piece ≠ [])
    (split_white_space (trim (code_units "  hola   mundo "))) ∧
  words (code_units "  hola   mundo ") =
    length (split_white_space (trim (code_units "  hola   mundo "))).
Proof.
  apply (proj1 (proj2 (words_edge_guards (code_units "  hola   mundo ")))).
  intros H. apply Forall_forall with (x := 104%N) in H; [done|].
  by_evaluation.
Defined.

(** X17 at a text whose lines are already single spaced. *)
Lemma collapse_newlines_fixed_witness :
  collapse_newlines (code_units "uno" ++ [10%N] ++ code_units "dos") =
  code_units "uno" ++ [10%N] ++ code_units "dos".
Proof.
  apply (proj2 (proj1 (collapse_newlines_fixed_points
                         (code_units "uno" ++ [10%N] ++ code_units "dos")))).
  vm_compute. reflexivity.
Defined.

(** X20 at the sample model. *)
Lemma homework_loop_witness :
  let run := homework_loop sample_world [SystemMessage "s"; HumanMessage "q"] in
  exit run = ModelDone ∧
  iteracion run = 2 ∧
  [SystemMessage "s"; HumanMessage "q"] `prefix_of` history run.
Proof.
  intros run. split; [by vm_compute|]. split; [by vm_compute|].
  apply (proj2 (homework_loop_is_bounded sample_world
                  [SystemMessage "s"; HumanMessage "q"])).
  vm_compute. discriminate.
Defined.
